(** * wire-webapp: view-layer logic

    A shallow embedding of three view-layer units of the web client and of
    the properties stated about them:

    - [Modals]   : src/script/view_model/ModalsViewModel.js, the modal dialog
                   manager (queue + four-state lifecycle);
    - [Mention]  : src/script/page/message-list/MentionSuggestions/
                   MentionSuggestions.tsx, the keyboard-driven mention popup;
    - [Sidebar]  : the conversations sidebar component ([changeTab]).

    JavaScript objects become records, observables become record fields that
    are read and written through a small state/exception/output monad, JS
    object literals used as dictionaries become [gmap]s, and calls into code
    that lives outside these files (callbacks supplied by callers, the
    logger, repositories) are recorded as output events. *)

From stdpp Require Import base option list strings gmap.
From Stdlib Require Import ZArith Lia.

Local Open Scope string_scope.
Local Open Scope list_scope.

#[local] Set Warnings "-clear-no-such-hyp".

(* ===================================================================== *)
(** * The modal manager (ModalsViewModel.js)                              *)
(* ===================================================================== *)

Module Modals.

(** ** Data *)

(** [const States = {CLOSING, NONE, OPEN, READY}] *)
Inductive States := CLOSING | NONE | OPEN | READY.

#[global] Instance States_eq_dec : EqDecision States.
Proof. solve_decision. Defined.

(** The JavaScript values that end up in the text fields of a content
    record: [undefined], a boolean (the ACKNOWLEDGE branch can store
    [false]) or a string. *)
Inductive JsValue :=
| undefined
| JsBool (b : bool)
| JsString (s : string).

#[global] Instance JsValue_eq_dec : EqDecision JsValue.
Proof. solve_decision. Defined.

(** A function stored in a content record: the module-level [noop] or a
    function handed in by the caller through [options].  Caller functions
    are opaque; they are identified by a number, calling one is recorded as
    an output event, and the call is taken to return normally. *)
Inductive Fn := noop | external (f : nat).

(** [onBgClick] is either [noop] or the manager's own [hide]. *)
Inductive BgClickFn := bg_noop | this_hide.

#[global] Instance Fn_eq_dec : EqDecision Fn.
Proof. solve_decision. Defined.
#[global] Instance BgClickFn_eq_dec : EqDecision BgClickFn.
Proof. solve_decision. Defined.

(** [options.text]; an absent property is [None].  The record stands for
    an object: a [text] that is [null] is not represented. *)
Record Text := mkText {
  text_action : option string;
  text_option : option string;
  text_input : option string;
  text_htmlMessage : option string;
  text_message : option string;
  text_secondary : option string;
  text_title : option string;
}.

(** [const {..., text = {}} = options]: the empty object. *)
Definition empty_text : Text := mkText None None None None None None None.

Record Device := mkDevice { time : string; model : string }.

(** [options.data]: absent, a flag (read receipts on/off) or the array of
    new devices, each entry a device object. *)
Inductive Data :=
| data_undefined
| data_bool (b : bool)
| data_devices (devices : list Device).

Record Options := mkOptions {
  action : option nat;
  close : option nat;
  data : Data;
  preventClose : option bool;
  secondary : option nat;
  text : option Text;
}.

(** [_showModal = (type, options = {}) => ...]: the empty object. *)
Definition empty_options : Options :=
  mkOptions None None data_undefined None None None.

(** An entry of [this.queue], built by [{options, type}].  [options] is
    left out ([None]) or an object; an [options] that is [null] is not
    represented. *)
Record Request := mkRequest { options : option Options; type : string }.

Record Content := mkContent {
  actionFn : Fn;
  actionText : JsValue;
  checkboxLabel : JsValue;
  closeFn : Fn;
  currentType : option string;      (* [null] is [None] *)
  inputPlaceholder : JsValue;
  messageHtml : JsValue;
  messageText : JsValue;
  modalUie : JsValue;
  onBgClick : BgClickFn;
  secondaryFn : Fn;
  secondaryText : JsValue;
  titleText : JsValue;
}.

#[global] Instance Content_eq_dec : EqDecision Content.
Proof. solve_decision. Defined.

Definition defaultContent : Content := {|
  actionFn := noop;
  actionText := JsString "";
  checkboxLabel := JsString "";
  closeFn := noop;
  currentType := None;
  inputPlaceholder := JsString "";
  messageHtml := JsString "";
  messageText := JsString "";
  modalUie := JsString "";
  onBgClick := bg_noop;
  secondaryFn := noop;
  secondaryText := JsString "";
  titleText := JsString "";
|}.

(** [static get TYPE()] *)
Definition ACCOUNT_NEW_DEVICES : string := "modal-account-new-devices".
Definition ACCOUNT_READ_RECEIPTS_CHANGED : string := "modal-account-read-receipts-changed".
Definition ACKNOWLEDGE : string := "modal-template-acknowledge".
Definition CONFIRM : string := "modal-template-confirm".
Definition INPUT : string := "modal-template-input".
Definition OPTION : string := "modal-template-option".
Definition SESSION_RESET : string := "modal-session-reset".

(** [Object.values(ModalsViewModel.TYPE)] *)
Definition TYPE_values : list string :=
  [ACCOUNT_NEW_DEVICES; ACCOUNT_READ_RECEIPTS_CHANGED; ACKNOWLEDGE; CONFIRM;
   INPUT; OPTION; SESSION_RESET].

(** [Object.values(ModalsViewModel.TYPE).includes(type)] *)
Definition supported (type : string) : bool := bool_decide (type ∈ TYPE_values).

(** The fields of a [ModalsViewModel] instance that change over time. *)
Record ModalsViewModel := mkVM {
  optionChecked : bool;
  inputValue : string;
  content : Content;
  state : States;
  queue : list Request;
}.

(** What a method call does to the outside world. *)
Inductive Effect :=
| Warn (message : string)            (* [this.logger.warn(message)] *)
| Call (f : nat) (argument : JsValue) (* a caller-supplied function is called *)
| ApplyBindings (elementId : string). (* [ko.applyBindings(this, element)] *)

(** ** The monad of method bodies

    A method body reads and writes the instance, emits effects, and either
    completes or throws.  Writes made before a throw stay made. *)

Inductive Completion (A : Type) :=
| Normal (a : A)
| Throw (error : string).
Arguments Normal {A} a.
Arguments Throw {A} error.

Record Outcome (A : Type) := mkOutcome {
  result : Completion A;
  after : ModalsViewModel;
  emitted : list Effect;
}.
Arguments mkOutcome {A}.
Arguments result {A}.
Arguments after {A}.
Arguments emitted {A}.

Definition M (A : Type) : Type := ModalsViewModel → Outcome A.

#[global] Instance M_ret : MRet M := λ A a vm, mkOutcome (Normal a) vm [].

#[global] Instance M_bind : MBind M := λ A B k m vm,
  let o := m vm in
  match result o with
  | Normal a =>
      let o' := k a (after o) in
      mkOutcome (result o') (after o') (emitted o ++ emitted o')
  | Throw e => mkOutcome (Throw e) (after o) (emitted o)
  end.

Definition throw {A} (e : string) : M A := λ vm, mkOutcome (Throw e) vm [].
Definition emit (e : Effect) : M unit := λ vm, mkOutcome (Normal ()) vm [e].
Definition get {A} (field : ModalsViewModel → A) : M A :=
  λ vm, mkOutcome (Normal (field vm)) vm [].
Definition modify (f : ModalsViewModel → ModalsViewModel) : M unit :=
  λ vm, mkOutcome (Normal ()) (f vm) [].

(** Observable and field writes. *)
Definition set_optionChecked (b : bool) : M unit :=
  modify (λ vm, mkVM b (inputValue vm) (content vm) (state vm) (queue vm)).
Definition set_inputValue (s : string) : M unit :=
  modify (λ vm, mkVM (optionChecked vm) s (content vm) (state vm) (queue vm)).
Definition set_content (c : Content) : M unit :=
  modify (λ vm, mkVM (optionChecked vm) (inputValue vm) c (state vm) (queue vm)).
Definition set_state (s : States) : M unit :=
  modify (λ vm, mkVM (optionChecked vm) (inputValue vm) (content vm) s (queue vm)).
Definition set_queue (q : list Request) : M unit :=
  modify (λ vm, mkVM (optionChecked vm) (inputValue vm) (content vm) (state vm) q).

(** [this.queue.push(r)] *)
Definition queue_push (r : Request) : M unit :=
  q ← get queue; set_queue (q ++ [r]).

(** [this.queue.shift()]: removes and returns the first entry, [undefined]
    ([None]) on an empty array. *)
Definition queue_shift : M (option Request) :=
  q ← get queue;
  match q with
  | [] => mret None
  | r :: rest => set_queue rest;; mret (Some r)
  end.

(** Calling a stored function. *)
Definition call (f : Fn) (argument : JsValue) : M unit :=
  match f with
  | noop => mret ()
  | external g => emit (Call g argument)
  end.

(** ** Content construction ([_showModal], lines 113-174) *)

(** A property of [options.text] as a JavaScript value. *)
Definition js (o : option string) : JsValue :=
  match o with
  | Some s => JsString s
  | None => undefined
  end.

(** Truthiness of a string-or-undefined value. *)
Definition truthy (o : option string) : bool :=
  match o with
  | Some s => negb (String.eqb s "")
  | None => false
  end.

(** [a || b] for a string-or-undefined [a] and a string [b]. *)
Definition or_else (a : option string) (b : string) : JsValue :=
  if truthy a then js a else JsString b.

(** Assignments to single fields of the [content] object literal. *)
Definition with_actionText (v : JsValue) (c : Content) : Content :=
  mkContent (actionFn c) v (checkboxLabel c) (closeFn c) (currentType c)
    (inputPlaceholder c) (messageHtml c) (messageText c) (modalUie c)
    (onBgClick c) (secondaryFn c) (secondaryText c) (titleText c).
Definition with_messageHtml (v : JsValue) (c : Content) : Content :=
  mkContent (actionFn c) (actionText c) (checkboxLabel c) (closeFn c) (currentType c)
    (inputPlaceholder c) v (messageText c) (modalUie c)
    (onBgClick c) (secondaryFn c) (secondaryText c) (titleText c).
Definition with_messageText (v : JsValue) (c : Content) : Content :=
  mkContent (actionFn c) (actionText c) (checkboxLabel c) (closeFn c) (currentType c)
    (inputPlaceholder c) (messageHtml c) v (modalUie c)
    (onBgClick c) (secondaryFn c) (secondaryText c) (titleText c).
Definition with_secondaryText (v : JsValue) (c : Content) : Content :=
  mkContent (actionFn c) (actionText c) (checkboxLabel c) (closeFn c) (currentType c)
    (inputPlaceholder c) (messageHtml c) (messageText c) (modalUie c)
    (onBgClick c) (secondaryFn c) v (titleText c).
Definition with_titleText (v : JsValue) (c : Content) : Content :=
  mkContent (actionFn c) (actionText c) (checkboxLabel c) (closeFn c) (currentType c)
    (inputPlaceholder c) (messageHtml c) (messageText c) (modalUie c)
    (onBgClick c) (secondaryFn c) (secondaryText c) v.

(** The double-quote character of the HTML attribute values. *)
Definition dq : string := String (Ascii.ascii_of_nat 34) EmptyString.

Section Methods.

(** Functions of other modules that the manager calls for texts. *)
Variable t : string → string.                       (* utils/LocalizerUtil *)
Variable moment_format : string → string → string.  (* moment(time).format(pattern) *)
Variable supportLink : string.  (* z.util.URLUtil.buildSupportUrl(z.config.SUPPORT.FORM.BUG) *)

(** [device => ...] of the ACCOUNT_NEW_DEVICES branch. *)
Definition device_html (device : Device) : string :=
  let deviceTime := moment_format (time device) "MMMM Do YYYY, HH:mm" in
  let deviceModel := t "modalAccountNewDevicesFrom" +:+ " " +:+ model device in
  "<div>" +:+ deviceTime +:+ " - UTC</div><div>" +:+ deviceModel +:+ "</div>".

(** [array.join('')] *)
Definition join (parts : list string) : string :=
  foldr String.append EmptyString parts.

(** Lines 113-174: the content record of a request of a supported type.
    The only statement that can throw is [data.map] of the
    ACCOUNT_NEW_DEVICES branch, when [data] is not an array. *)
Definition build_content (type : string) (options : Options)
  : Completion Content :=
  let action := from_option external noop (action options) in
  let close := from_option external noop (close options) in
  let data := data options in
  let preventClose := default false (preventClose options) in
  let secondary := from_option external noop (secondary options) in
  let text := default empty_text (text options) in
  let content := {|
    actionFn := action;
    actionText := js (text_action text);
    checkboxLabel := js (text_option text);
    closeFn := close;
    currentType := Some type;
    inputPlaceholder := js (text_input text);
    messageHtml := js (text_htmlMessage text);
    messageText := js (text_message text);
    modalUie := JsString type;
    onBgClick := if preventClose then bg_noop else this_hide;
    secondaryFn := secondary;
    secondaryText := js (text_secondary text);
    titleText := js (text_title text);
  |} in
  if decide (type = ACCOUNT_NEW_DEVICES) then
    let content := with_titleText (JsString (t "modalAccountNewDevicesHeadline")) content in
    let content := with_actionText (JsString (t "modalAcknowledgeAction")) content in
    let content := with_secondaryText (JsString (t "modalAccountNewDevicesSecondary")) content in
    let content := with_messageText (JsString (t "modalAccountNewDevicesMessage")) content in
    match data with
    | data_devices devices =>
        let deviceList := join (map device_html devices) in
        Normal (with_messageHtml
                  (JsString ("<div class=" +:+ dq +:+ "modal__content__device-list"
                             +:+ dq +:+ ">" +:+ deviceList +:+ "</div>"))
                  content)
    | _ => Throw "TypeError"
    end
  else if decide (type = ACCOUNT_READ_RECEIPTS_CHANGED) then
    let content := with_actionText (JsString (t "modalAcknowledgeAction")) content in
    let content :=
      with_titleText
        (JsString (match data with
                   | data_undefined | data_bool false =>
                       t "modalAccountReadReceiptsChangedOffHeadline"
                   | data_bool true | data_devices _ =>
                       t "modalAccountReadReceiptsChangedOnHeadline"
                   end)) content in
    Normal (with_messageText (JsString (t "modalAccountReadReceiptsChangedMessage")) content)
  else if decide (type = ACKNOWLEDGE) then
    let content := with_actionText (or_else (text_action text) (t "modalAcknowledgeAction")) content in
    let content := with_titleText (or_else (text_title text) (t "modalAcknowledgeHeadline")) content in
    Normal (with_messageText
              (if truthy (text_htmlMessage text) then JsBool false
               else js (text_message text))
              content)
  else if decide (type = CONFIRM) then
    Normal (with_secondaryText (JsString (t "modalConfirmSecondary")) content)
  else if decide (type = INPUT ∨ type = OPTION) then
    Normal (with_secondaryText
              (match text_secondary text with
               | Some s => JsString s
               | None => JsString (t "modalOptionSecondary")
               end)
              content)
  else if decide (type = SESSION_RESET) then
    let content := with_titleText (JsString (t "modalSessionResetHeadline")) content in
    let content := with_actionText (JsString (t "modalAcknowledgeAction")) content in
    Normal (with_messageHtml
              (JsString (t "modalSessionResetMessage1" +:+ "<a href=" +:+ dq +:+ supportLink
                         +:+ dq +:+ "rel=" +:+ dq +:+ "nofollow noopener noreferrer" +:+ dq
                         +:+ " target=" +:+ dq +:+ "_blank" +:+ dq +:+ ">"
                         +:+ t "modalSessionResetMessageLink" +:+ "</a>"
                         +:+ t "modalSessionResetMessage2"))
              content)
  else Normal content.

(** ** Methods *)

(** [constructor()]: the instance right after construction. *)
Definition constructor : ModalsViewModel := {|
  optionChecked := false;
  inputValue := "";
  content := defaultContent;
  state := NONE;
  queue := [];
|}.

Definition isModalVisible (vm : ModalsViewModel) : bool :=
  bool_decide (state vm = OPEN).

Definition _showModal (type : string) (options : option Options) : M unit :=
  let options := default empty_options options in
  if negb (supported type) then
    emit (Warn ("Modal of type '" +:+ type +:+ "' is not supported"))
  else
    match build_content type options with
    | Normal content => set_content content;; set_state OPEN
    | Throw e => throw e
    end.

Definition unqueue : M unit :=
  s ← get state;
  q ← get queue;
  if bool_decide (s = READY) && negb (length q =? 0)%nat then
    r ← queue_shift;
    match r with
    | Some r => _showModal (type r) (options r)
    | None => throw "TypeError"
    end
  else mret ().

Definition showModal (type : string) (options : option Options) : M unit :=
  queue_push (mkRequest options type);;
  unqueue.

(** [ko.applyBindings] belongs to the view library; the call is recorded
    and taken to return normally, as it does on a view that is not bound
    yet: the start-up call, in particular every call made in NONE.  On a
    view that is already bound the library throws before the state is
    written, and such a call leaves the instance as it was. *)
Definition ready : M unit :=
  emit (ApplyBindings "modals");;
  set_state READY;;
  unqueue.

Definition hasInput (vm : ModalsViewModel) : bool :=
  bool_decide (currentType (content vm) = Some INPUT).
Definition hasOption (vm : ModalsViewModel) : bool :=
  bool_decide (currentType (content vm) = Some OPTION).

Definition confirm : M unit :=
  c ← get content;
  if bool_decide (currentType c = Some OPTION) then
    b ← get optionChecked; call (actionFn c) (JsBool b)
  else if bool_decide (currentType c = Some INPUT) then
    v ← get inputValue; call (actionFn c) (JsString v)
  else call (actionFn c) undefined.

Definition hide : M unit :=
  set_state CLOSING;;
  c ← get content;
  call (closeFn c) undefined.

Definition doAction : M unit := confirm;; hide.

Definition doSecondary : M unit :=
  c ← get content;
  call (secondaryFn c) undefined;;
  hide.

Definition onModalHidden : M unit :=
  set_content defaultContent;;
  set_inputValue "";;
  set_optionChecked false;;
  set_state READY;;
  unqueue.

(** ** Call sequences

    The manager is driven from outside by calls of its methods: by the
    pub/sub subscription ([showModal]), the application start-up
    ([ready]) and the bound view ([hide], [doAction], [doSecondary],
    [onModalHidden]).  A caller-supplied function that calls back into the
    manager amounts to further entries of the call sequence.  [_showModal]
    is internal: it is reached through [unqueue] only. *)
Inductive MethodCall :=
| call_showModal (type : string) (options : option Options)
| call_ready
| call_unqueue
| call_confirm
| call_doAction
| call_doSecondary
| call_hide
| call_onModalHidden.

Definition perform (c : MethodCall) : M unit :=
  match c with
  | call_showModal type options => showModal type options
  | call_ready => ready
  | call_unqueue => unqueue
  | call_confirm => confirm
  | call_doAction => doAction
  | call_doSecondary => doSecondary
  | call_hide => hide
  | call_onModalHidden => onModalHidden
  end.

(** The instance after a sequence of calls; a call that throws ends there
    and the next call finds the instance as the throw left it. *)
Definition run (calls : list MethodCall) (vm : ModalsViewModel) : ModalsViewModel :=
  foldl (λ vm c, after (perform c vm)) vm calls.

(** Everything the calls emitted, in order. *)
Fixpoint run_effects (calls : list MethodCall) (vm : ModalsViewModel) : list Effect :=
  match calls with
  | [] => []
  | c :: calls =>
      let o := perform c vm in
      emitted o ++ run_effects calls (after o)
  end.

Definition reachable (vm : ModalsViewModel) : Prop :=
  ∃ calls, run calls constructor = vm.

(** ** Vocabulary of the statements *)

(** A request can be shown: its type is supported and its content record
    can be built. *)
Definition showable (r : Request) : bool :=
  supported (type r) &&
  match build_content (type r) (default empty_options (options r)) with
  | Normal _ => true
  | Throw _ => false
  end.

(** The content record a showable request is displayed with. *)
Definition content_of (r : Request) : Content :=
  match build_content (type r) (default empty_options (options r)) with
  | Normal c => c
  | Throw _ => defaultContent
  end.

(** The [showModal] call that submits a request. *)
Definition submit (r : Request) : MethodCall :=
  call_showModal (type r) (options r).

(** The view dismisses the open modal [n] times: [hide], then
    [onModalHidden] once the close animation is over. *)
Fixpoint dismissals (n : nat) : list MethodCall :=
  match n with
  | 0 => []
  | S n => call_hide :: call_onModalHidden :: dismissals n
  end.

(** Every request submitted by a call sequence can be shown. *)
Definition submits_showable (c : MethodCall) : Prop :=
  match c with
  | call_showModal type options => showable (mkRequest options type) = true
  | _ => True
  end.

(** The call sequence, started on [vm], calls [ready] only while the
    lifecycle state is NONE, as the application does when it binds the
    view at start-up. *)
Fixpoint ready_only_from_NONE (calls : list MethodCall) (vm : ModalsViewModel)
  : Prop :=
  match calls with
  | [] => True
  | c :: calls =>
      (c = call_ready → state vm = NONE) ∧
      ready_only_from_NONE calls (after (perform c vm))
  end.

(** Idle states hold the default content. *)
Definition idle_default (vm : ModalsViewModel) : Prop :=
  state vm = NONE ∨ state vm = READY → content vm = defaultContent.

(** Every queued request can be shown, and READY never coexists with a
    queued request. *)
Definition none_stranded (vm : ModalsViewModel) : Prop :=
  Forall (λ r, showable r = true) (queue vm) ∧ (state vm = READY → queue vm = []).

(** An open modal shows a request of [among] that can be shown, and every
    queued request is one of [among]. *)
Definition shows_one_of (among : list Request) (vm : ModalsViewModel) : Prop :=
  (state vm = OPEN →
   ∃ r, r ∈ among ∧ showable r = true ∧ content vm = content_of r) ∧
  (∀ r, r ∈ queue vm → r ∈ among).

End Methods.

(** The instance with another queue, all else equal. *)
Definition with_queue (q : list Request) (vm : ModalsViewModel) : ModalsViewModel :=
  mkVM (optionChecked vm) (inputValue vm) (content vm) (state vm) q.

(** The instance after [this.state(States.CLOSING)]. *)
Definition closing (vm : ModalsViewModel) : ModalsViewModel :=
  mkVM (optionChecked vm) (inputValue vm) (content vm) CLOSING (queue vm).

(** The instance after [this.state(States.READY)]. *)
Definition awaiting (vm : ModalsViewModel) : ModalsViewModel :=
  mkVM (optionChecked vm) (inputValue vm) (content vm) READY (queue vm).

(** The instance after the four resetting writes of [onModalHidden]. *)
Definition reset (vm : ModalsViewModel) : ModalsViewModel :=
  mkVM false "" defaultContent READY (queue vm).

(** The instance showing [c], with [q] still queued. *)
Definition showing (c : Content) (q : list Request) (vm : ModalsViewModel)
  : ModalsViewModel :=
  mkVM (optionChecked vm) (inputValue vm) c OPEN q.

(** ** Sample data for the examples

    A localisation table that answers every key with the key itself, a date
    formatter that answers the raw timestamp, and a few requests. *)
Definition t_keys : string → string := λ key, key.
Definition moment_raw : string → string → string := λ time pattern, time.
Definition support_url : string := "https://support.wire.com".

Definition unknown_request : Request := mkRequest None "modal-unknown".

Definition confirm_request : Request :=
  mkRequest
    (Some (mkOptions (Some 1) (Some 2) data_undefined None None
             (Some (mkText (Some "Leave") None None None (Some "Leave the call?")
                      None (Some "Leave")))))
    CONFIRM.

Definition acknowledge_request : Request :=
  mkRequest
    (Some (mkOptions None None data_undefined None None
             (Some (mkText None None None None (Some "Conversation is full")
                      None None))))
    ACKNOWLEDGE.

Definition input_request : Request := mkRequest None INPUT.

(** The calls of a session in which every submitted request can be shown. *)
Definition showable_session : list MethodCall :=
  [submit confirm_request; call_ready; submit acknowledge_request;
   submit input_request].

(** ** Further vocabulary *)

(** The requests that a call sequence submits, in order. *)
Definition submitted (calls : list MethodCall) : list Request :=
  omap (λ c, match c with
             | call_showModal type options => Some (mkRequest options type)
             | _ => None
             end) calls.

(** The warning that [_showModal] logs for an unsupported type. *)
Definition warning (type : string) : Effect :=
  Warn ("Modal of type '" +:+ type +:+ "' is not supported").

(** What calling a callback of [options] does: nothing when it is absent
    (the default is [noop]). *)
Definition invoked (f : option nat) (argument : JsValue) : list Effect :=
  match f with
  | Some g => [Call g argument]
  | None => []
  end.

(** [data] is an array of devices. *)
Definition is_device_list (d : Data) : bool :=
  match d with
  | data_devices _ => true
  | _ => false
  end.

(** The argument that [confirm] passes to the action of a modal of the
    given type. *)
Definition confirm_argument (type : string) (vm : ModalsViewModel) : JsValue :=
  if decide (type = OPTION) then JsBool (optionChecked vm)
  else if decide (type = INPUT) then JsString (inputValue vm)
  else undefined.

(** More sample requests. *)
Definition new_devices_request : Request :=
  mkRequest
    (Some (mkOptions None None
             (data_devices [mkDevice "2018-05-04T10:00:00Z" "Desktop"])
             (Some true) None None))
    ACCOUNT_NEW_DEVICES.

Definition new_devices_without_list : Request :=
  mkRequest None ACCOUNT_NEW_DEVICES.

Definition option_request : Request :=
  mkRequest
    (Some (mkOptions (Some 5) (Some 6) data_undefined None (Some 7)
             (Some (mkText (Some "Delete") (Some "Also delete for others") None None
                      (Some "Delete the message?") (Some "") (Some "Delete")))))
    OPTION.

End Modals.

(* ===================================================================== *)
(** * The mention suggestion list (MentionSuggestions.tsx)                *)
(* ===================================================================== *)

Module Mention.

(** ** Data *)

(** A [User] entity; the component reads only its [id]. *)
Record User := mkUser { id : string }.

#[global] Instance User_eq_dec : EqDecision User.
Proof. solve_decision. Defined.

(** Modelled from the spec: [clamp] of Util/NumberUtil, which is not among
    the sources.  The spec says the selection index is "clamped to bounds";
    [clamp value min max] is the value when it lies within the bounds and
    the nearer bound otherwise. *)
Definition clamp (value min max : Z) : Z := Z.max min (Z.min value max).

(** The fields of a keydown event that the component reads or sets. *)
Record KeyboardEvent := mkKeyboardEvent {
  key : string;
  shiftKey : bool;
  defaultPrevented : bool;
  propagationStopped : bool;
}.

Definition preventDefault (e : KeyboardEvent) : KeyboardEvent :=
  mkKeyboardEvent (key e) (shiftKey e) true (propagationStopped e).
Definition stopPropagation (e : KeyboardEvent) : KeyboardEvent :=
  mkKeyboardEvent (key e) (shiftKey e) (defaultPrevented e) true.

(** The entries of [KEY] (Util/KeyboardUtil, not among the sources) that
    the component uses. *)
Record KeyTable := mkKeyTable {
  ARROW_UP : string;
  ARROW_DOWN : string;
  ENTER : string;
  TAB : string;
}.

(** The values the DOM gives [event.key] for these keys. *)
Definition dom_keys : KeyTable := mkKeyTable "ArrowUp" "ArrowDown" "Enter" "Tab".

(** What the function body sees in one render: the props, the element found
    for [targetInputSelector] (if any), the value of the state variable, and
    a number that tells the function objects of this render from those of
    any other. *)
Record Scope := mkScope {
  suggestions : list User;
  targetInput : option nat;
  selectedSuggestionIndex : Z;
  render_id : nat;
}.

#[global] Instance Scope_eq_dec : EqDecision Scope.
Proof. solve_decision. Defined.

(** What handlers and effects act on: the state cell behind
    [selectedSuggestionIndex], the keydown listeners registered on each
    element (a listener is the [onInput] of some render, named by its
    scope), and the calls of [onSelectionValidated] made so far. *)
Record World := mkWorld {
  index : Z;
  listeners : gmap nat (list Scope);
  validated : list (option User * nat);
}.

Definition listeners_of (input : nat) (w : World) : list Scope :=
  default [] (listeners w !! input).

(** [setSelectedSuggestionIndex(update)] with an updater function. *)
Definition setSelectedSuggestionIndex (update : Z → Z) (w : World) : World :=
  mkWorld (update (index w)) (listeners w) (validated w).

(** [onSelectionValidated(data, element)] *)
Definition onSelectionValidated (data : option User) (element : nat) (w : World)
  : World :=
  mkWorld (index w) (listeners w) (validated w ++ [(data, element)]).

(** [element.addEventListener('keydown', listener)]: a listener that is
    already registered is not registered twice. *)
Definition addEventListener (element : nat) (listener : Scope) (w : World) : World :=
  let registered := listeners_of element w in
  if decide (listener ∈ registered) then w
  else mkWorld (index w) (<[element := registered ++ [listener]]> (listeners w))
         (validated w).

(** [element.removeEventListener('keydown', listener)] *)
Definition removeEventListener (element : nat) (listener : Scope) (w : World) : World :=
  mkWorld (index w)
    (alter (filter (λ l, l ≠ listener)) element (listeners w))
    (validated w).

(** [array[i]] for an integral [i]: [undefined] ([None]) out of range. *)
Definition at_index {A} (array : list A) (i : Z) : option A :=
  if (i <? 0)%Z then None else array !! Z.to_nat i.

Section Component.

Variable KEY : KeyTable.

(** ** The effect of lines 61-98 *)

Definition isVisible (sc : Scope) : bool := (0 <? length (suggestions sc))%nat.

Definition updateSelectedIndex (sc : Scope) (delta : Z) : World → World :=
  setSelectedSuggestionIndex
    (λ curr, clamp (curr + delta) 0 (Z.of_nat (length (suggestions sc)) - 1)).

(** A handler acts on the event and on the world. *)
Definition Action : Type := KeyboardEvent → World → KeyboardEvent * World.

Definition moveSelection (sc : Scope) (delta : Z) : Action := λ event w,
  let w := updateSelectedIndex sc delta w in
  let event := preventDefault event in
  let event := stopPropagation event in
  (event, w).

Definition validateSelection (sc : Scope) : Action := λ event w,
  match targetInput sc with
  | Some input =>
      if negb (shiftKey event) then
        let w := onSelectionValidated
                   (at_index (suggestions sc) (selectedSuggestionIndex sc)) input w in
        let event := preventDefault event in
        let event := stopPropagation event in
        (event, w)
      else (event, w)
  | None => (event, w)
  end.

(** The object literal [actions]; a later property replaces an earlier one
    of the same name. *)
Definition actions (sc : Scope) : gmap string Action :=
  <[TAB KEY := validateSelection sc]>
    (<[ENTER KEY := validateSelection sc]>
       (<[ARROW_DOWN KEY := moveSelection sc (-1)]>
          (<[ARROW_UP KEY := moveSelection sc 1]> ∅))).

(** [actions[event.key]?.()]; the [key] of a keyboard event names a key or
    a character, never a property that an object literal inherits. *)
Definition onInput (sc : Scope) : Action := λ event w,
  match actions sc !! key event with
  | Some action => action event w
  | None => (event, w)
  end.

(** The effect body. *)
Definition effect (sc : Scope) (w : World) : World :=
  let w :=
    match targetInput sc with
    | Some input => if isVisible sc then addEventListener input sc w else w
    | None => w
    end in
  updateSelectedIndex sc 0 w.

(** The function the effect body returns. *)
Definition cleanup (sc : Scope) (w : World) : World :=
  match targetInput sc with
  | Some input => removeEventListener input sc w
  | None => w
  end.

(** The order in which the items are rendered: [suggestions.map(...)
    .reverse()], each item with the index it had in [suggestions]. *)
Definition rendered (sc : Scope) : list (nat * User) :=
  reverse (imap (λ index suggestion, (index, suggestion)) (suggestions sc)).

(** ** The mounted component

    React's part: it keeps the state cell, calls the function body again
    when props or state change, and, when a dependency of the effect has
    changed, runs the cleanup of the previous effect and then the new
    effect.  Scrolling the selected item into view, the [bottom] offset and
    the click handler of an item play no part in the selection index or in
    the keydown listener and are left out. *)

Record Props := mkProps {
  props_suggestions : list User;
  props_targetInput : option nat;   (* what [querySelector] finds *)
}.

Record Component := mkComponent {
  props : Props;
  world : World;
  installed : option Scope;   (* the effect whose cleanup is pending *)
  renders : nat;              (* renders so far *)
}.

(** One render whose effect runs. *)
Definition commit (c : Component) : Component :=
  let w :=
    match installed c with
    | Some previous => cleanup previous (world c)
    | None => world c
    end in
  let sc := mkScope (props_suggestions (props c)) (props_targetInput (props c))
              (index w) (renders c) in
  mkComponent (props c) (effect sc w) (Some sc) (S (renders c)).

(** A render, and the one more that follows when the effect itself changed
    the state variable. *)
Definition render (c : Component) : Component :=
  let c' := commit c in
  if decide (index (world c') = index (world c)) then c' else commit c'.

Definition mount (p : Props) : Component :=
  render (mkComponent p (mkWorld 0 ∅ []) None 0).

(** All keydown listeners of an element run, in registration order. *)
Definition dispatch (registered : list Scope) (event : KeyboardEvent) (w : World)
  : KeyboardEvent * World :=
  foldl (λ ew sc, onInput sc ew.1 ew.2) (event, w) registered.

(** What happens to a mounted component. *)
Inductive Happening :=
| new_props (p : Props)                         (* the parent renders it again *)
| keydown (element : nat) (event : KeyboardEvent) (* a key goes down in an element *)
| mouse_enter (item : nat).                     (* the pointer enters an item *)

Definition happen (h : Happening) (c : Component) : KeyboardEvent * Component :=
  let unused := mkKeyboardEvent "" false false false in
  match h with
  | new_props p =>
      (unused, render (mkComponent p (world c) (installed c) (renders c)))
  | keydown element event =>
      let '(event, w) := dispatch (listeners_of element (world c)) event (world c) in
      let c' := mkComponent (props c) w (installed c) (renders c) in
      (event, if decide (index w = index (world c)) then c' else render c')
  | mouse_enter item =>
      if (item <? length (props_suggestions (props c)))%nat then
        let w := setSelectedSuggestionIndex (λ _, Z.of_nat item) (world c) in
        let c' := mkComponent (props c) w (installed c) (renders c) in
        (unused, if decide (index w = index (world c)) then c' else render c')
      else (unused, c)
  end.

Definition after_all (hs : list Happening) (c : Component) : Component :=
  foldl (λ c h, (happen h c).2) c hs.

(** Unmounting runs the pending cleanup. *)
Definition unmount (c : Component) : World :=
  match installed c with
  | Some sc => cleanup sc (world c)
  | None => world c
  end.

(** The components after each key of a sequence that reached a listener of
    the component, all keys going down in [element]. *)
Fixpoint after_each_delivered (element : nat) (events : list KeyboardEvent)
  (c : Component) : list Component :=
  match events with
  | [] => []
  | event :: events =>
      let c' := (happen (keydown element event) c).2 in
      match listeners_of element (world c) with
      | [] => after_each_delivered element events c'
      | _ :: _ => c' :: after_each_delivered element events c'
      end
  end.

End Component.

(** ** Vocabulary of the statements *)

(** The listeners that the effect of scope [sc] keeps on [element]. *)
Definition expected_listeners (sc : Scope) (element : nat) : list Scope :=
  if decide (suggestions sc ≠ [] ∧ targetInput sc = Some element) then [sc] else [].

(** The only listeners registered are those of the pending effect. *)
Definition tidy (c : Component) : Prop :=
  ∀ element,
    listeners_of element (world c)
    = match installed c with
      | Some sc => expected_listeners sc element
      | None => []
      end.

(** The selection index lies within the suggestion list. *)
Definition in_bounds (suggestions : list User) (i : Z) : Prop :=
  (0 ≤ i ≤ Z.of_nat (length suggestions) - 1)%Z.

(** The component at rest between two happenings: the pending effect
    belongs to a render with the current props and state. *)
Definition settled (c : Component) : Prop :=
  ∃ sc,
    installed c = Some sc ∧
    suggestions sc = props_suggestions (props c) ∧
    targetInput sc = props_targetInput (props c) ∧
    selectedSuggestionIndex sc = index (world c) ∧
    (∀ element, listeners_of element (world c) = expected_listeners sc element) ∧
    (suggestions sc ≠ [] → in_bounds (suggestions sc) (index (world c))).

(** ** Sample data *)
Definition alice : User := mkUser "alice".
Definition bob : User := mkUser "bob".
Definition carol : User := mkUser "carol".
Definition three_suggestions : Props := mkProps [alice; bob; carol] (Some 7).

End Mention.

(* ===================================================================== *)
(** * The conversations sidebar ([Conversations] component)               *)
(* ===================================================================== *)

Module Sidebar.

(** [export enum SidebarTabs] *)
Inductive SidebarTabs :=
| RECENT | FOLDER | FAVORITES | GROUPS | DIRECTS | ARCHIVES | CONNECT | PREFERENCES.

#[global] Instance SidebarTabs_eq_dec : EqDecision SidebarTabs.
Proof. solve_decision. Defined.

(** The members of [ViewType], [ListState] and [ContentState] (declared in
    other modules) that [changeTab] passes on. *)
Inductive ViewType := LEFT_SIDEBAR | CENTRAL_COLUMN.
Inductive ListState := CONVERSATIONS | LIST_PREFERENCES.
Inductive ContentState := CONVERSATION | COLLECTION | PREFERENCES_ACCOUNT.

#[global] Instance ViewType_eq_dec : EqDecision ViewType.
Proof. solve_decision. Defined.
#[global] Instance ListState_eq_dec : EqDecision ListState.
Proof. solve_decision. Defined.
#[global] Instance ContentState_eq_dec : EqDecision ContentState.
Proof. solve_decision. Defined.

(** Calls into repositories and view models owned by the application. *)
Inductive Effect :=
| updateArchivedConversations            (* [conversationRepository.updateArchivedConversations()] *)
| setCurrentView (view : ViewType)
| switchList (listState : ListState)     (* [listViewModel.switchList] *)
| switchContent (contentState : ContentState). (* [listViewModel.contentViewModel.switchContent] *)

#[global] Instance Effect_eq_dec : EqDecision Effect.
Proof. solve_decision. Defined.

(** The two [useState] cells of the component. *)
Record State := mkState {
  conversationsFilter : string;
  currentTab : SidebarTabs;
}.

Definition isFolderTab (s : State) : bool := bool_decide (currentTab s = FOLDER).
Definition isPreferences (s : State) : bool := bool_decide (currentTab s = PREFERENCES).

Definition showSearchInput (s : State) : bool :=
  bool_decide (currentTab s ∈ [RECENT; FOLDER; FAVORITES; GROUPS; DIRECTS; ARCHIVES]).

Definition onExitPreferences : list Effect :=
  [setCurrentView LEFT_SIDEBAR; switchList CONVERSATIONS; switchContent CONVERSATION].

(** [changeTab(nextTab)]: the state for the next render and the calls made,
    in order. *)
Definition changeTab (nextTab : SidebarTabs) (s : State) : State * list Effect :=
  let archived :=
    if decide (nextTab = ARCHIVES) then [updateArchivedConversations] else [] in
  let exited :=
    if decide (nextTab ≠ PREFERENCES) then onExitPreferences else [] in
  let s := mkState "" (currentTab s) in       (* setConversationsFilter('') *)
  let s := mkState (conversationsFilter s) nextTab in  (* setCurrentTab(nextTab) *)
  (s, archived ++ exited).

(** ** The rest of the component *)

(** [propertiesRepository.getPreference(VIEW_FOLDERS) ? FOLDER : RECENT];
    [viewFolders] is the truthiness of the stored preference. *)
Definition initialTab (viewFolders : bool) : SidebarTabs :=
  if viewFolders then FOLDER else RECENT.

(** The state of the first render: [useState('')] and
    [useState(initialTab)]. *)
Definition initial (viewFolders : bool) : State :=
  mkState "" (initialTab viewFolders).

(** [onChange] of the search input and [onClick] of its clear icon. *)
Definition type_filter (value : string) (s : State) : State :=
  mkState value (currentTab s).
Definition clear_filter (s : State) : State :=
  mkState "" (currentTab s).

(** The effect [savePreference(VIEW_FOLDERS, isFolderTab)] with the
    dependency [isFolderTab]: the values it saves after the first render
    and after a later render. *)
Definition saved_on_mount (s : State) : list bool := [isFolderTab s].
Definition saved_on_update (before now : State) : list bool :=
  if decide (isFolderTab before = isFolderTab now) then [] else [isFolderTab now].

(** The tabs of a session, changed to one after the other: the state at
    the end and the values saved on the way. *)
Fixpoint tab_changes (tabs : list SidebarTabs) (s : State) : State * list bool :=
  match tabs with
  | [] => (s, [])
  | tab :: tabs =>
      let s' := (changeTab tab s).1 in
      let rest := tab_changes tabs s' in
      (rest.1, saved_on_update s s' ++ rest.2)
  end.

Definition session (viewFolders : bool) (tabs : list SidebarTabs)
  : State * list bool :=
  let s := initial viewFolders in
  let rest := tab_changes tabs s in
  (rest.1, saved_on_mount s ++ rest.2).

(** Each value of the list differs from the one before it, the first one
    from [before]. *)
Fixpoint alternates (before : bool) (saved : list bool) : Prop :=
  match saved with
  | [] => True
  | value :: saved => value ≠ before ∧ alternates value saved
  end.

(** The lengths of the lists that decide what is rendered. *)
Record Lists := mkLists {
  conversations : nat;
  connectRequests : nat;
  archivedConversations : nat;
  currentTabConversations : nat;   (* of [getTabConversations] *)
}.

Definition hasNoConversations (l : Lists) : bool :=
  (conversations l + connectRequests l =? 0)%nat.

(** The children of [ListWrapper] that the JSX renders, top to bottom. *)
Inductive Block :=
| PreferencesPanel
| Welcome                         (* with the button to the CONNECT tab *)
| AllArchived
| SearchInput (clearIcon : bool)
| NoResult                        (* with the button to the CONNECT tab *)
| StartUI
| ConversationsList.

#[global] Instance Block_eq_dec : EqDecision Block.
Proof. solve_decision. Defined.

Definition children (s : State) (l : Lists) : list Block :=
  (if isPreferences s then [PreferencesPanel] else []) ++
  (if isPreferences s then []
   else if hasNoConversations l then
     if (archivedConversations l =? 0)%nat then [Welcome] else [AllArchived]
   else
     (if showSearchInput s
      then [SearchInput (negb (String.eqb (conversationsFilter s) ""))] else []) ++
     (if showSearchInput s && (currentTabConversations l =? 0)%nat
      then [NoResult] else []) ++
     (if decide (currentTab s = CONNECT) then [StartUI] else []) ++
     (if showSearchInput s then [ConversationsList] else [])).

End Sidebar.

(* ===================================================================== *)
(** * The client event names ([ClientEvent])                              *)
(* ===================================================================== *)

Module ClientEvent.

(** A string enum: its members and their values, in order. *)
Definition CALL : list (string * string) :=
  [("E_CALL", "call.e-call")].

Definition CONVERSATION : list (string * string) :=
  [("ASSET_ADD", "conversation.asset-add");
   ("CONFIRMATION", "conversation.confirmation");
   ("DELETE_EVERYWHERE", "conversation.delete-everywhere");
   ("GROUP_CREATION", "conversation.group-creation");
   ("INCOMING_MESSAGE_TOO_BIG", "conversation.incoming-message-too-big");
   ("KNOCK", "conversation.knock");
   ("LOCATION", "conversation.location");
   ("MESSAGE_ADD", "conversation.message-add");
   ("MESSAGE_DELETE", "conversation.message-delete");
   ("MESSAGE_HIDDEN", "conversation.message-hidden");
   ("MISSED_MESSAGES", "conversation.missed-messages");
   ("ONE2ONE_CREATION", "conversation.one2one-creation");
   ("REACTION", "conversation.reaction");
   ("TEAM_MEMBER_LEAVE", "conversation.team-member-leave");
   ("UNABLE_TO_DECRYPT", "conversation.unable-to-decrypt");
   ("VERIFICATION", "conversation.verification");
   ("VOICE_CHANNEL_ACTIVATE", "conversation.voice-channel-activate");
   ("VOICE_CHANNEL_DEACTIVATE", "conversation.voice-channel-deactivate")].

Definition USER : list (string * string) :=
  [("AVAILABILITY", "user.availability")].

(** [export const ClientEvent = {CALL, CONVERSATION, USER}] *)
Definition ClientEvent : list (string * list (string * string)) :=
  [("CALL", CALL); ("CONVERSATION", CONVERSATION); ("USER", USER)].

(** Every event name of the registry, with the enum it belongs to. *)
Definition names : list (string * string) :=
  '(enum, members) ← ClientEvent; '(_, value) ← members; [(enum, value)].

(** An upper-case identifier in lower case, words joined by hyphens. *)
Definition kebab_char (a : Ascii.ascii) : Ascii.ascii :=
  let n := Ascii.nat_of_ascii a in
  if (65 <=? n)%nat && (n <=? 90)%nat then Ascii.ascii_of_nat (n + 32)
  else if (n =? 95)%nat then Ascii.ascii_of_nat 45
  else a.

Fixpoint kebab (s : string) : string :=
  match s with
  | EmptyString => EmptyString
  | String a s => String (kebab_char a) (kebab s)
  end.

End ClientEvent.

(* ===================================================================== *)
(** * Properties of the modal manager                                     *)
(* ===================================================================== *)

Module ModalsProperties.
Import Modals.

Ltac unfold_monad :=
  cbv [mbind M_bind mret M_ret get modify emit throw call
       set_content set_state set_queue set_inputValue set_optionChecked
       queue_push queue_shift].

Section Proofs.
Variable t : string → string.
Variable moment_format : string → string → string.
Variable supportLink : string.

Local Abbreviation build_content := (build_content t moment_format supportLink).
Local Abbreviation _showModal := (_showModal t moment_format supportLink).
Local Abbreviation unqueue := (unqueue t moment_format supportLink).
Local Abbreviation showModal := (showModal t moment_format supportLink).
Local Abbreviation ready := (ready t moment_format supportLink).
Local Abbreviation onModalHidden := (onModalHidden t moment_format supportLink).
Local Abbreviation perform := (perform t moment_format supportLink).
Local Abbreviation run := (run t moment_format supportLink).
Local Abbreviation showable := (showable t moment_format supportLink).
Local Abbreviation content_of := (content_of t moment_format supportLink).
Local Abbreviation none_stranded := (none_stranded t moment_format supportLink).

(** *** [_showModal] *)

Lemma _showModal_unsupported type options vm :
  supported type = false →
  _showModal type options vm
  = mkOutcome (Normal ()) vm [Warn ("Modal of type '" +:+ type +:+ "' is not supported")].
Proof. intros H. unfold _showModal. rewrite H. reflexivity. Qed.

Lemma _showModal_showable r vm :
  showable r = true →
  _showModal (type r) (options r) vm
  = mkOutcome (Normal ()) (showing (content_of r) (queue vm) vm) [].
Proof.
  unfold showable, content_of, _showModal.
  intros [Hs Hb]%andb_true_iff. rewrite Hs. cbn [negb].
  destruct (build_content _ _); [reflexivity | discriminate].
Qed.

Lemma _showModal_not_showable r vm :
  showable r = false →
  after (_showModal (type r) (options r) vm) = vm.
Proof.
  unfold showable, _showModal. intros H.
  destruct (supported (type r)); cbn in *; [|reflexivity].
  destruct (build_content _ _); [discriminate | reflexivity].
Qed.

(** *** [unqueue] *)

Lemma unqueue_not_READY vm :
  state vm ≠ READY → unqueue vm = mkOutcome (Normal ()) vm [].
Proof.
  intros H. unfold unqueue. unfold_monad. cbn.
  rewrite bool_decide_eq_false_2 by done. reflexivity.
Qed.

Lemma unqueue_empty vm :
  queue vm = [] → unqueue vm = mkOutcome (Normal ()) vm [].
Proof.
  intros H. unfold unqueue. unfold_monad. cbn. rewrite H. cbn.
  rewrite andb_false_r. reflexivity.
Qed.

Lemma unqueue_READY vm r rest :
  state vm = READY → queue vm = r :: rest →
  unqueue vm = _showModal (type r) (options r) (with_queue rest vm).
Proof.
  intros Hs Hq. unfold unqueue. unfold_monad. cbn. rewrite Hs, Hq.
  rewrite bool_decide_eq_true_2 by done. cbn. rewrite Hq. cbn.
  fold (with_queue rest vm).
  destruct (_showModal _ _ _) as [[] ? ?]; cbn; reflexivity.
Qed.


Lemma unqueue_showable vm r rest :
  state vm = READY → queue vm = r :: rest → showable r = true →
  unqueue vm = mkOutcome (Normal ()) (showing (content_of r) rest vm) [].
Proof.
  intros Hs Hq Hr. rewrite (unqueue_READY _ _ _ Hs Hq).
  apply (_showModal_showable r (with_queue rest vm) Hr).
Qed.

Lemma unqueue_not_showable vm r rest :
  state vm = READY → queue vm = r :: rest → showable r = false →
  after (unqueue vm) = with_queue rest vm.
Proof.
  intros Hs Hq Hr. rewrite (unqueue_READY _ _ _ Hs Hq).
  apply _showModal_not_showable, Hr.
Qed.

(** *** [showModal] *)

Lemma showModal_unqueue type options vm :
  showModal type options vm
  = unqueue (with_queue (queue vm ++ [mkRequest options type]) vm).
Proof.
  unfold showModal. unfold_monad. cbn.
  fold (with_queue (queue vm ++ [mkRequest options type]) vm).
  destruct (unqueue _) as [[] ? ?]; reflexivity.
Qed.

Lemma showModal_not_READY type options vm :
  state vm ≠ READY →
  showModal type options vm
  = mkOutcome (Normal ()) (with_queue (queue vm ++ [mkRequest options type]) vm) [].
Proof. intros H. rewrite showModal_unqueue. apply unqueue_not_READY, H. Qed.

Lemma with_queue_id vm : with_queue (queue vm) vm = vm.
Proof. destruct vm; reflexivity. Qed.

Lemma showModal_idle type options vm :
  state vm = READY → queue vm = [] →
  showModal type options vm = _showModal type options vm.
Proof.
  intros Hs Hq. rewrite showModal_unqueue.
  rewrite (unqueue_READY (with_queue _ vm) (mkRequest options type) []);
    [|exact Hs|cbn; by rewrite Hq].
  change (_showModal type options (with_queue [] vm) = _showModal type options vm).
  f_equal. rewrite <- Hq. apply with_queue_id.
Qed.

(** *** The other methods *)

Lemma confirm_spec vm :
  ∃ effects, confirm vm = mkOutcome (Normal ()) vm effects.
Proof.
  unfold confirm. unfold_monad. cbn.
  repeat case_bool_decide; cbn; destruct (actionFn (content vm)); cbn; eauto.
Qed.

Lemma after_confirm vm : after (confirm vm) = vm.
Proof. by destruct (confirm_spec vm) as [effects ->]. Qed.

Lemma after_hide vm : after (hide vm) = closing vm.
Proof.
  unfold hide. unfold_monad. cbn. destruct (closeFn (content vm)); reflexivity.
Qed.

Lemma after_doAction vm : after (doAction vm) = closing vm.
Proof.
  unfold doAction. unfold_monad. fold (@mbind M _).
  destruct (confirm_spec vm) as [effects ->]. cbn. apply after_hide.
Qed.

Lemma after_doSecondary vm : after (doSecondary vm) = closing vm.
Proof.
  unfold doSecondary, hide. unfold_monad. cbn.
  destruct (secondaryFn (content vm)); cbn;
    destruct (closeFn (content vm)); reflexivity.
Qed.

Lemma ready_unqueue vm :
  after (ready vm) = after (unqueue (awaiting vm)).
Proof.
  unfold ready. unfold_monad. cbn. fold (awaiting vm).
  destruct (unqueue _) as [[] ? ?]; reflexivity.
Qed.

Lemma onModalHidden_unqueue vm :
  onModalHidden vm = unqueue (reset vm).
Proof.
  unfold onModalHidden. unfold_monad. cbn. fold (reset vm).
  destruct (unqueue _) as [[] ? ?]; reflexivity.
Qed.

(** *** Call sequences *)

Lemma run_cons c calls vm : run (c :: calls) vm = run calls (after (perform c vm)).
Proof. reflexivity. Qed.

Lemma run_submit_not_READY rs vm :
  state vm ≠ READY →
  run (submit <$> rs) vm = with_queue (queue vm ++ rs) vm.
Proof.
  revert vm. induction rs as [|r rs IH]; intros vm Hs.
  - cbn. rewrite app_nil_r. symmetry. apply with_queue_id.
  - rewrite fmap_cons, run_cons. cbn [perform submit].
    rewrite showModal_not_READY by done. cbn [after].
    rewrite IH by exact Hs. destruct r. unfold with_queue. cbn.
    by rewrite <- app_assoc.
Qed.

Lemma run_dismiss vm calls :
  run (call_hide :: call_onModalHidden :: calls) vm
  = run calls (after (unqueue (reset vm))).
Proof.
  rewrite !run_cons. cbn [perform]. rewrite after_hide, onModalHidden_unqueue.
  reflexivity.
Qed.

Lemma dismissals_show k : ∀ vm q r,
  queue vm = q → Forall (λ r, showable r = true) q → q !! k = Some r →
  run (dismissals (S k)) vm = mkVM false "" (content_of r) OPEN (drop (S k) q).
Proof.
  induction k as [|k IH]; intros vm q r Hq Hall Hk.
  - destruct q as [|r' q]; [done|]. injection Hk as ->.
    apply Forall_cons in Hall as [Hr _].
    cbn [dismissals]. rewrite run_dismiss.
    rewrite (unqueue_showable (reset vm) r q); done.
  - destruct q as [|r' q]; [done|].
    apply Forall_cons in Hall as [Hr Hall].
    change (dismissals (S (S k))) with (call_hide :: call_onModalHidden :: dismissals (S k)).
    rewrite run_dismiss.
    rewrite (unqueue_showable (reset vm) r' q) by done.
    cbn [after]. apply IH; done.
Qed.

Lemma dismissals_drain vm :
  Forall (λ r, showable r = true) (queue vm) →
  run (dismissals (S (length (queue vm)))) vm = mkVM false "" defaultContent READY [].
Proof.
  remember (queue vm) as q eqn:Hq. revert vm Hq.
  induction q as [|r q IH]; intros vm Hq Hall.
  - cbn [length dismissals]. rewrite run_dismiss. rewrite unqueue_empty by done.
    cbn. unfold reset. by rewrite <- Hq.
  - apply Forall_cons in Hall as [Hr Hall].
    change (dismissals (S (length (r :: q))))
      with (call_hide :: call_onModalHidden :: dismissals (S (length q))).
    rewrite run_dismiss.
    rewrite (unqueue_showable (reset vm) r q) by done.
    cbn [after]. apply IH; done.
Qed.

(** *** Invariants of [unqueue] *)

Lemma unqueue_cases vm :
  after (unqueue vm) = vm ∨
  ∃ r rest, state vm = READY ∧ queue vm = r :: rest ∧
    (if showable r then after (unqueue vm) = showing (content_of r) rest vm
     else after (unqueue vm) = with_queue rest vm).
Proof.
  destruct (decide (state vm = READY)) as [Hs|Hs];
    [|left; by rewrite unqueue_not_READY].
  destruct (queue vm) as [|r rest] eqn:Hq; [left; by rewrite unqueue_empty|].
  right. exists r, rest. split_and!; [done..|].
  destruct (showable r) eqn:Hr.
  - by rewrite (unqueue_showable vm r rest).
  - by apply (unqueue_not_showable vm r rest).
Qed.

Lemma unqueue_idle_default vm :
  idle_default vm → idle_default (after (unqueue vm)).
Proof.
  intros Hinv. destruct (unqueue_cases vm) as [->|(r & rest & Hs & Hq & H)]; [done|].
  destruct (showable r); rewrite H; unfold idle_default in *; cbn; [|done].
  intros [?|?]; discriminate.
Qed.

Lemma unqueue_none_stranded vm :
  Forall (λ r, showable r = true) (queue vm) → none_stranded (after (unqueue vm)).
Proof.
  intros Hall. unfold none_stranded.
  destruct (decide (state vm = READY)) as [Hs|Hs];
    [|by rewrite unqueue_not_READY].
  destruct (queue vm) as [|r rest] eqn:Hq.
  - rewrite unqueue_empty by done. cbn. by rewrite Hq.
  - apply Forall_cons in Hall as [Hr Hall].
    rewrite (unqueue_showable vm r rest) by done. cbn. split; [done|discriminate].
Qed.

Lemma perform_idle_default c vm :
  (c = call_ready → state vm = NONE) →
  idle_default vm → idle_default (after (perform c vm)).
Proof.
  intros Hready Hinv. destruct c; cbn [perform].
  - rewrite showModal_unqueue. by apply unqueue_idle_default.
  - rewrite ready_unqueue. apply unqueue_idle_default.
    intros _. cbn. apply Hinv. left. by apply Hready.
  - by apply unqueue_idle_default.
  - by rewrite after_confirm.
  - rewrite after_doAction. intros [?|?]; discriminate.
  - rewrite after_doSecondary. intros [?|?]; discriminate.
  - rewrite after_hide. intros [?|?]; discriminate.
  - rewrite onModalHidden_unqueue. by apply unqueue_idle_default.
Qed.

Lemma perform_none_stranded c vm :
  submits_showable t moment_format supportLink c →
  none_stranded vm → none_stranded (after (perform c vm)).
Proof.
  intros Hc [Hall Hinv]. destruct c; cbn [perform].
  - rewrite showModal_unqueue. apply unqueue_none_stranded. cbn.
    apply Forall_app. split; [done|]. by apply Forall_singleton.
  - rewrite ready_unqueue. by apply unqueue_none_stranded.
  - by apply unqueue_none_stranded.
  - by rewrite after_confirm.
  - rewrite after_doAction. split; [done|discriminate].
  - rewrite after_doSecondary. split; [done|discriminate].
  - rewrite after_hide. split; [done|discriminate].
  - rewrite onModalHidden_unqueue. by apply unqueue_none_stranded.
Qed.

Lemma run_idle_default calls : ∀ vm,
  ready_only_from_NONE t moment_format supportLink calls vm →
  idle_default vm → idle_default (run calls vm).
Proof.
  induction calls as [|c calls IH]; intros vm Hp Hinv; [done|].
  destruct Hp as [Hc Hp]. rewrite run_cons.
  apply IH; [done|]. by apply perform_idle_default.
Qed.

Lemma run_none_stranded calls : ∀ vm,
  Forall (submits_showable t moment_format supportLink) calls →
  none_stranded vm → none_stranded (run calls vm).
Proof.
  induction calls as [|c calls IH]; intros vm Hp Hinv; [done|].
  apply Forall_cons in Hp as [Hc Hp]. rewrite run_cons.
  apply IH; [done|]. by apply perform_none_stranded.
Qed.

(** *** The statements about the manager *)


(** C2 (as amended).  A request of an unsupported type is rejected by
    [_showModal] with a warning and no change of the instance.  Through
    [showModal] it is first appended to the queue: while the manager is not
    READY it stays there and nothing else changes; when the manager is
    READY with an empty queue it is dequeued and rejected at once, so the
    instance, queue included, ends as it began. *)
Theorem unsupported_type_rejected type options vm :
  supported type = false →
  let warning := Warn ("Modal of type '" +:+ type +:+ "' is not supported") in
  _showModal type options vm = mkOutcome (Normal ()) vm [warning] ∧
  (state vm ≠ READY →
   showModal type options vm
   = mkOutcome (Normal ())
       (with_queue (queue vm ++ [mkRequest options type]) vm) []) ∧
  (state vm = READY → queue vm = [] →
   showModal type options vm = mkOutcome (Normal ()) vm [warning]).
Proof.
  intros H warning. split_and!.
  - by apply _showModal_unsupported.
  - by apply showModal_not_READY.
  - intros Hs Hq. rewrite showModal_idle by done. by apply _showModal_unsupported.
Qed.

(** C3 (as amended).  When every submitted request can be shown, the
    manager never rests in READY with a non-empty queue; each
    [onModalHidden] that finds a queued request shows the oldest one; and
    the queued requests are shown one at a time in arrival order, request
    number [k] of the queue after [k+1] dismissals, until the queue is
    empty and the manager rests in READY. *)
Theorem queued_requests_eventually_shown calls :
  Forall (submits_showable t moment_format supportLink) calls →
  let vm := run calls constructor in
  (state vm = READY → queue vm = []) ∧
  (∀ oldest rest, queue vm = oldest :: rest →
     after (onModalHidden vm) = mkVM false "" (content_of oldest) OPEN rest) ∧
  (∀ k r, queue vm !! k = Some r →
     run (dismissals (S k)) vm
     = mkVM false "" (content_of r) OPEN (drop (S k) (queue vm))) ∧
  run (dismissals (S (length (queue vm)))) vm
  = mkVM false "" defaultContent READY [].
Proof.
  intros Hcalls vm.
  assert (none_stranded vm) as [Hall Hidle].
  { apply run_none_stranded; [done|]. split; [constructor|discriminate]. }
  split_and!; [done| | |].
  - intros oldest rest Hq. rewrite Hq in Hall.
    apply Forall_cons in Hall as [Ho _].
    rewrite onModalHidden_unqueue.
    by rewrite (unqueue_showable (reset vm) oldest rest).
  - intros k r Hk. by apply dismissals_show.
  - by apply dismissals_drain.
Qed.

(** C4 (as amended).  After every call of [onModalHidden], whatever the
    prior state, the input value is the empty string and the checkbox
    value is false.  With an empty queue the manager is READY with the
    default content.  With a non-empty queue the oldest request has been
    dequeued: if it can be shown the manager is already OPEN with that
    request's content, otherwise it is READY with the default content. *)
Theorem onModalHidden_resets vm :
  let vm' := after (onModalHidden vm) in
  inputValue vm' = "" ∧ optionChecked vm' = false ∧
  match queue vm with
  | [] => vm' = mkVM false "" defaultContent READY []
  | oldest :: rest =>
      if showable oldest
      then vm' = mkVM false "" (content_of oldest) OPEN rest
      else vm' = mkVM false "" defaultContent READY rest
  end.
Proof.
  intros vm'. subst vm'. rewrite onModalHidden_unqueue.
  destruct (queue vm) as [|oldest rest] eqn:Hq.
  - rewrite unqueue_empty by done. cbn. unfold reset. by rewrite Hq.
  - destruct (showable oldest) eqn:Ho.
    + by rewrite (unqueue_showable (reset vm) oldest rest).
    + by rewrite (unqueue_not_showable (reset vm) oldest rest).
Qed.

(** C5 (as amended).  In every state reached from the constructed
    instance by method calls that call [ready] only while the lifecycle
    state is NONE, the content is the default content whenever the state
    is NONE or READY; a non-default content is held only in OPEN or
    CLOSING. *)
Theorem default_content_when_idle calls :
  ready_only_from_NONE t moment_format supportLink calls constructor →
  let vm := run calls constructor in
  (state vm = NONE ∨ state vm = READY → content vm = defaultContent) ∧
  (content vm ≠ defaultContent → state vm = OPEN ∨ state vm = CLOSING).
Proof.
  intros Hp vm.
  assert (Hinv : idle_default vm) by (by apply run_idle_default).
  split; [exact Hinv|]. intros Hc.
  destruct (state vm) eqn:Hs; auto; destruct Hc; apply Hinv; auto.
Qed.

End Proofs.

(** *** Instances and counterexamples *)

Local Abbreviation run0 := (run t_keys moment_raw support_url).
Local Abbreviation submits_showable0 := (submits_showable t_keys moment_raw support_url).



Lemma unsupported_type_rejected_witness :
  supported "modal-unknown" = false ∧
  showModal t_keys moment_raw support_url "modal-unknown" None constructor
  = mkOutcome (Normal ())
      (with_queue (queue constructor ++ [mkRequest None "modal-unknown"]) constructor) [].
Proof.
  split; [reflexivity|].
  apply (unsupported_type_rejected t_keys moment_raw support_url
           "modal-unknown" None constructor); [reflexivity|discriminate].
Defined.

(** C2, as stated, fails: before start-up a [showModal] call with an
    unsupported type changes the queue. *)
Lemma unsupported_type_changes_queue :
  reachable t_keys moment_raw support_url constructor ∧
  supported "modal-unknown" = false ∧
  let vm := after (showModal t_keys moment_raw support_url "modal-unknown" None constructor) in
  queue vm = [unknown_request] ∧ queue vm ≠ queue constructor ∧ vm ≠ constructor.
Proof. split; [by exists []|]. cbn. split_and!; done. Qed.

Lemma queued_requests_eventually_shown_witness :
  Forall submits_showable0 showable_session ∧
  let vm := run0 showable_session constructor in
  queue vm = [acknowledge_request; input_request] ∧
  run0 (dismissals 2) vm
  = mkVM false "" (content_of t_keys moment_raw support_url input_request) OPEN [] ∧
  run0 (dismissals 3) vm = mkVM false "" defaultContent READY [].
Proof.
  assert (H : Forall submits_showable0 showable_session) by (repeat constructor).
  split; [exact H|].
  pose proof (queued_requests_eventually_shown t_keys moment_raw support_url
                showable_session H) as (_ & _ & Hk & Hdrain).
  split_and!; [reflexivity|exact (Hk 1 input_request eq_refl)|exact Hdrain].
Defined.

(** C3, as stated, fails: an unsupported request that waits in the queue is
    never shown, and the supported request behind it is left in the queue
    while the manager rests in READY. *)
Lemma request_stranded_behind_unsupported :
  let calls := [call_ready; submit confirm_request; submit unknown_request;
                submit acknowledge_request; call_hide; call_onModalHidden] in
  let vm := run0 calls constructor in
  state vm = READY ∧ queue vm = [acknowledge_request] ∧
  content vm = defaultContent ∧ isModalVisible vm = false ∧
  run_effects t_keys moment_raw support_url calls constructor
  = [ApplyBindings "modals"; Call 2 undefined;
     Warn "Modal of type 'modal-unknown' is not supported"].
Proof. cbn. split_and!; done. Qed.

(** C4, as stated, fails: when a request is waiting, [onModalHidden] ends
    in OPEN with that request's content, not in READY with the default
    content. *)
Lemma onModalHidden_opens_next :
  let vm := run0 [call_ready; submit confirm_request; submit acknowledge_request;
                  call_hide] constructor in
  let vm' := after (onModalHidden t_keys moment_raw support_url vm) in
  state vm = CLOSING ∧ queue vm = [acknowledge_request] ∧
  state vm' = OPEN ∧ state vm' ≠ READY ∧ content vm' ≠ defaultContent.
Proof. cbn. split_and!; done. Qed.

Lemma default_content_when_idle_witness :
  let calls := [submit confirm_request; call_ready; call_doAction; call_onModalHidden] in
  ready_only_from_NONE t_keys moment_raw support_url calls constructor ∧
  state (run0 calls constructor) = READY ∧
  content (run0 calls constructor) = defaultContent.
Proof.
  intros calls.
  assert (H : ready_only_from_NONE t_keys moment_raw support_url calls constructor)
    by (cbn; split_and!; done).
  split; [exact H|]. split; [reflexivity|].
  apply (default_content_when_idle t_keys moment_raw support_url calls H).
  right. reflexivity.
Defined.

(** C5, as stated, fails: nothing stops a caller from calling [ready]
    while a modal is open; the state becomes READY and the content of the
    modal stays. *)
Lemma ready_while_open_keeps_content :
  let vm := run0 [call_onModalHidden; submit confirm_request; call_ready] constructor in
  reachable t_keys moment_raw support_url vm ∧
  state vm = READY ∧ content vm ≠ defaultContent.
Proof.
  split; [by eexists|]. cbn. split; done.
Qed.

End ModalsProperties.

(* ===================================================================== *)
(** * Properties of the mention suggestion list                           *)
(* ===================================================================== *)

Module MentionProperties.
Import Mention.

(** *** Listener registration *)

Lemma listeners_of_add element element' l w :
  listeners_of element (addEventListener element' l w)
  = if decide (element = element' ∧ l ∉ listeners_of element w)
    then listeners_of element w ++ [l]
    else listeners_of element w.
Proof.
  unfold addEventListener.
  destruct (decide (l ∈ listeners_of element' w)) as [Hin|Hin].
  - rewrite decide_False; [done|]. by intros [-> ?].
  - unfold listeners_of at 1. cbn.
    destruct (decide (element = element')) as [->|Hne].
    + rewrite lookup_insert_eq, decide_True by done. done.
    + rewrite lookup_insert_ne, decide_False by naive_solver. done.
Qed.

Lemma listeners_of_remove element element' l w :
  listeners_of element (removeEventListener element' l w)
  = if decide (element = element')
    then filter (λ l', l' ≠ l) (listeners_of element w)
    else listeners_of element w.
Proof.
  unfold removeEventListener, listeners_of. cbn.
  destruct (decide (element = element')) as [->|Hne].
  - rewrite lookup_alter_eq. by destruct (listeners w !! element').
  - by rewrite lookup_alter_ne.
Qed.

Lemma clamp_in_bounds value max :
  (0 ≤ max)%Z → (0 ≤ clamp value 0 max ≤ max)%Z.
Proof. unfold clamp. lia. Qed.

Lemma clamp_idempotent value min max :
  clamp (clamp value min max) min max = clamp value min max.
Proof. unfold clamp. lia. Qed.

Lemma clamp_within value min max :
  (min ≤ value ≤ max)%Z → clamp value min max = value.
Proof. unfold clamp. lia. Qed.

Lemma filter_absent {A} `{EqDecision A} (x : A) (l : list A) :
  x ∉ l → filter (λ y, y ≠ x) l = l.
Proof.
  induction l as [|y l IH]; [done|].
  intros [Hne Hl]%not_elem_of_cons.
  rewrite filter_cons_True by done. by rewrite IH.
Qed.

(** *** Effect and cleanup *)

Lemma isVisible_nonempty sc : isVisible sc = true ↔ suggestions sc ≠ [].
Proof. unfold isVisible. destruct (suggestions sc); cbn; naive_solver. Qed.

Lemma listeners_of_effect element sc w :
  listeners_of element (effect sc w)
  = if decide ((suggestions sc ≠ [] ∧ targetInput sc = Some element)
               ∧ sc ∉ listeners_of element w)
    then listeners_of element w ++ [sc]
    else listeners_of element w.
Proof.
  unfold effect, updateSelectedIndex, setSelectedSuggestionIndex.
  change (listeners_of element (mkWorld ?i ?l ?v)) with (default [] (l !! element)).
  destruct (targetInput sc) as [input|] eqn:Ht.
  - destruct (isVisible sc) eqn:Hv.
    + apply isVisible_nonempty in Hv.
      fold (listeners_of element (addEventListener input sc w)).
      rewrite listeners_of_add. repeat case_decide; naive_solver.
    + assert (suggestions sc = []) as Hs.
      { unfold isVisible in Hv. by destruct (suggestions sc). }
      rewrite decide_False by naive_solver. done.
  - rewrite decide_False by naive_solver. done.
Qed.

Lemma index_effect sc w :
  index (effect sc w)
  = clamp (index w) 0 (Z.of_nat (length (suggestions sc)) - 1).
Proof.
  unfold effect, updateSelectedIndex, setSelectedSuggestionIndex. cbn [index].
  rewrite Z.add_0_r. f_equal.
  destruct (targetInput sc); [|done]. destruct (isVisible sc); [|done].
  unfold addEventListener. by case_decide.
Qed.

Lemma validated_effect sc w : validated (effect sc w) = validated w.
Proof.
  unfold effect, updateSelectedIndex, setSelectedSuggestionIndex. cbn [validated].
  destruct (targetInput sc); [|done]. destruct (isVisible sc); [|done].
  unfold addEventListener. by case_decide.
Qed.

Lemma listeners_of_cleanup element sc w :
  listeners_of element (cleanup sc w)
  = if decide (targetInput sc = Some element)
    then filter (λ l, l ≠ sc) (listeners_of element w)
    else listeners_of element w.
Proof.
  unfold cleanup. destruct (targetInput sc) as [input|]; [|by rewrite decide_False].
  rewrite listeners_of_remove. repeat case_decide; naive_solver.
Qed.

Lemma index_cleanup sc w : index (cleanup sc w) = index w.
Proof. unfold cleanup. by destruct (targetInput sc). Qed.

Lemma validated_cleanup sc w : validated (cleanup sc w) = validated w.
Proof. unfold cleanup. by destruct (targetInput sc). Qed.

(** The cleanup of an effect takes away exactly what the effect registered. *)
Lemma cleanup_effect element sc w :
  sc ∉ listeners_of element w →
  listeners_of element (cleanup sc (effect sc w)) = listeners_of element w.
Proof.
  intros Hfresh. rewrite listeners_of_cleanup, listeners_of_effect.
  assert (Hsame : filter (λ l, l ≠ sc) (listeners_of element w) = listeners_of element w).
  { by apply filter_absent. }
  repeat case_decide; try naive_solver.
  rewrite filter_app, Hsame. cbn. rewrite decide_False by naive_solver.
  by rewrite app_nil_r.
Qed.

(** *** Renders *)

Lemma unmount_clears c element :
  tidy c → listeners_of element (unmount c) = [].
Proof.
  intros Htidy. specialize (Htidy element). unfold unmount.
  destruct (installed c) as [sc|]; [|done].
  rewrite listeners_of_cleanup, Htidy. unfold expected_listeners.
  repeat case_decide; try naive_solver.
  cbn. by rewrite decide_False by naive_solver.
Qed.

Lemma index_unmount c : index (unmount c) = index (world c).
Proof. unfold unmount. destruct (installed c); [apply index_cleanup|done]. Qed.

Lemma validated_unmount c : validated (unmount c) = validated (world c).
Proof. unfold unmount. destruct (installed c); [apply validated_cleanup|done]. Qed.

Lemma commit_spec c :
  tidy c →
  let sc := mkScope (props_suggestions (props c)) (props_targetInput (props c))
              (index (world c)) (renders c) in
  props (commit c) = props c ∧
  installed (commit c) = Some sc ∧
  index (world (commit c))
  = clamp (index (world c)) 0 (Z.of_nat (length (props_suggestions (props c))) - 1) ∧
  validated (world (commit c)) = validated (world c) ∧
  tidy (commit c).
Proof.
  intros Htidy sc.
  assert (Hc : commit c = mkComponent (props c) (effect sc (unmount c)) (Some sc)
                            (S (renders c))).
  { unfold commit, sc. fold (unmount c). by rewrite index_unmount. }
  rewrite Hc. cbn [props installed world]. split_and!; [done..| | |].
  - by rewrite index_effect, index_unmount.
  - by rewrite validated_effect, validated_unmount.
  - intros element. cbn [world installed]. rewrite listeners_of_effect.
    rewrite unmount_clears by done. unfold expected_listeners.
    repeat case_decide; try naive_solver.
    exfalso. set_solver.
Qed.

Lemma render_settles c :
  tidy c →
  settled (render c) ∧ props (render c) = props c ∧
  validated (world (render c)) = validated (world c).
Proof.
  intros Htidy.
  destruct (commit_spec c Htidy) as (Hp & Hi & Hx & Hv & Ht).
  unfold render. cbn zeta. case_decide as Hsame.
  - split_and!; [|done..]. eexists. split_and!; [exact Hi|by rewrite Hp..| | |].
    + cbn [selectedSuggestionIndex]. by rewrite Hsame.
    + intros element. specialize (Ht element). by rewrite Hi in Ht.
    + cbn [suggestions]. intros Hne. unfold in_bounds. rewrite Hx.
      apply clamp_in_bounds.
      destruct (props_suggestions (props c)); [done|]. cbn [length]. lia.
  - destruct (commit_spec (commit c) Ht) as (Hp' & Hi' & Hx' & Hv' & Ht').
    rewrite Hp in *.
    assert (Hstable : index (world (commit (commit c))) = index (world (commit c))).
    { rewrite Hx', Hx. apply clamp_idempotent. }
    split_and!; [|congruence..]. eexists. split_and!; [exact Hi'|by rewrite Hp'..| | |].
    + cbn [selectedSuggestionIndex]. by rewrite Hstable.
    + intros element. specialize (Ht' element). by rewrite Hi' in Ht'.
    + cbn [suggestions]. intros Hne. unfold in_bounds. rewrite Hstable, Hx.
      apply clamp_in_bounds.
      destruct (props_suggestions (props c)); [done|]. cbn [length]. lia.
Qed.

Lemma render_index c :
  tidy c →
  ∃ value, index (world (render c))
           = clamp value 0 (Z.of_nat (length (props_suggestions (props c))) - 1).
Proof.
  intros Htidy.
  destruct (commit_spec c Htidy) as (Hp & _ & Hx & _ & Ht).
  unfold render. cbn zeta. case_decide; [by eexists|].
  destruct (commit_spec (commit c) Ht) as (_ & _ & Hx' & _).
  rewrite Hp in Hx'. by eexists.
Qed.

(** Two commits are enough: one more would find the state variable
    unchanged. *)
Lemma render_stable c :
  tidy c → index (world (commit (render c))) = index (world (render c)).
Proof.
  intros Htidy.
  destruct (render_settles c Htidy) as (Hsettled & Hp & _).
  destruct (render_index c Htidy) as [value Hx].
  assert (Ht : tidy (render c)).
  { destruct Hsettled as (sc & Hi & _ & _ & _ & Hl & _).
    intros element. by rewrite Hi. }
  destruct (commit_spec (render c) Ht) as (_ & _ & -> & _).
  rewrite Hp, Hx. apply clamp_idempotent.
Qed.

Lemma settled_tidy c : settled c → tidy c.
Proof. intros (sc & Hi & _ & _ & _ & Hl & _) element. by rewrite Hi. Qed.

Lemma mount_settled p : settled (mount p) ∧ props (mount p) = p.
Proof.
  unfold mount. edestruct render_settles as (H & Hp & _); [|split; [exact H|exact Hp]].
  intros element. done.
Qed.

Section Handlers.

Variable KEY : KeyTable.

(** *** The keydown handler *)

Lemma actions_ENTER sc : actions KEY sc !! ENTER KEY = Some (validateSelection sc).
Proof.
  unfold actions. destruct (decide (TAB KEY = ENTER KEY)) as [->|Hne].
  - by rewrite lookup_insert_eq.
  - rewrite lookup_insert_ne by done. by rewrite lookup_insert_eq.
Qed.

Lemma actions_TAB sc : actions KEY sc !! TAB KEY = Some (validateSelection sc).
Proof. unfold actions. by rewrite lookup_insert_eq. Qed.

Lemma actions_ARROW_UP sc :
  NoDup [ARROW_UP KEY; ARROW_DOWN KEY; ENTER KEY; TAB KEY] →
  actions KEY sc !! ARROW_UP KEY = Some (moveSelection sc 1).
Proof.
  intros Hd. apply NoDup_cons in Hd as [Hn _].
  unfold actions. rewrite !lookup_insert_ne by set_solver.
  by rewrite lookup_insert_eq.
Qed.

Lemma actions_ARROW_DOWN sc :
  NoDup [ARROW_UP KEY; ARROW_DOWN KEY; ENTER KEY; TAB KEY] →
  actions KEY sc !! ARROW_DOWN KEY = Some (moveSelection sc (-1)).
Proof.
  intros Hd. apply NoDup_cons in Hd as [_ [Hn _]%NoDup_cons].
  unfold actions. rewrite !lookup_insert_ne by set_solver.
  by rewrite lookup_insert_eq.
Qed.

Lemma onInput_action sc event w action :
  actions KEY sc !! key event = Some action →
  onInput KEY sc event w = action event w.
Proof. unfold onInput, Action. by intros ->. Qed.

(** Every action is one of the two handlers of the scope. *)
Lemma actions_cases sc k action :
  actions KEY sc !! k = Some action →
  action = validateSelection sc ∨ action = moveSelection sc 1
  ∨ action = moveSelection sc (-1).
Proof.
  unfold actions. rewrite !lookup_insert. repeat case_decide; naive_solver.
Qed.

(** What a handler can do to the world. *)
Lemma onInput_world sc event w :
  let w' := (onInput KEY sc event w).2 in
  listeners w' = listeners w ∧
  (index w' = index w
   ∨ ∃ delta, index w'
       = clamp (index w + delta) 0 (Z.of_nat (length (suggestions sc)) - 1)).
Proof.
  unfold onInput. destruct (actions KEY sc !! key event) as [action|] eqn:Ha;
    [|by split; [|left]].
  apply actions_cases in Ha as [-> | [-> | ->]]; cbn.
  - unfold validateSelection. destruct (targetInput sc); [|by split; [|left]].
    destruct (shiftKey event); cbn; by split; [|left].
  - split; [done|]. right. by exists 1%Z.
  - split; [done|]. right. by exists (-1)%Z.
Qed.

Lemma dispatch_expected sc element event w :
  dispatch KEY (expected_listeners sc element) event w
  = if decide (suggestions sc ≠ [] ∧ targetInput sc = Some element)
    then onInput KEY sc event w else (event, w).
Proof. unfold expected_listeners. by case_decide. Qed.

Lemma component_eta c :
  mkComponent (props c) (world c) (installed c) (renders c) = c.
Proof. by destruct c. Qed.

(** A state change of a settled component that keeps the listeners leads
    to a settled component again. *)
Lemma settled_after_update c w :
  settled c →
  listeners w = listeners (world c) →
  ((∃ sc, installed c = Some sc ∧ suggestions sc ≠ []) →
   in_bounds (props_suggestions (props c)) (index w)) →
  let c' := mkComponent (props c) w (installed c) (renders c) in
  let c'' := if decide (index w = index (world c)) then c' else render c' in
  settled c'' ∧ props c'' = props c ∧ validated (world c'') = validated w.
Proof.
  intros (sc & Hi & Hs & Ht & Hx & Hl & Hb) Hlw Hbw c' c''.
  assert (Hlo : ∀ element, listeners_of element w = listeners_of element (world c))
    by (intros element; unfold listeners_of; by rewrite Hlw).
  subst c''. case_decide as Hsame.
  - split_and!; [|done..]. exists sc. subst c'. cbn [installed props world].
    split_and!; [done..|congruence| |].
    + intros element. by rewrite Hlo.
    + intros Hne. rewrite Hs. apply Hbw. eauto.
  - destruct (render_settles c') as (H1 & H2 & H3); [|by split_and!].
    intros element. subst c'. cbn [installed world]. by rewrite Hi, Hlo.
Qed.

Lemma happen_settled h c :
  settled c → settled (happen KEY h c).2.
Proof.
  intros Hc. pose proof Hc as (sc & Hi & Hs & Ht & Hx & Hl & Hb).
  destruct h as [p|element event|item]; cbn [happen snd].
  - apply render_settles. intros element. cbn [installed world].
    rewrite Hi. apply Hl.
  - rewrite Hl, dispatch_expected. case_decide as Hvis.
    + destruct (onInput_world sc event (world c)) as [Hlw Hxw].
      destruct (onInput KEY sc event (world c)) as [event' w'] eqn:Ho.
      cbn [snd] in *. refine (proj1 (settled_after_update c w' Hc Hlw _)).
      intros _. rewrite <- Hs. destruct Hxw as [-> |[delta ->]]; [apply Hb, Hvis|].
      apply clamp_in_bounds. destruct Hvis as [Hne _].
      destruct (suggestions sc); [done|]. cbn [length]. lia.
    + cbn [snd]. rewrite decide_True by done. by rewrite component_eta.
  - destruct (item <? length (props_suggestions (props c)))%nat eqn:Hitem; [|done].
    cbn [snd].
    refine (proj1 (settled_after_update c
                     (setSelectedSuggestionIndex (λ _, Z.of_nat item) (world c))
                     Hc eq_refl _)).
    intros _. apply Nat.ltb_lt in Hitem. unfold in_bounds. cbn. lia.
Qed.

Lemma after_all_settled hs : ∀ c, settled c → settled (after_all KEY hs c).
Proof.
  induction hs as [|h hs IH]; intros c Hc; [done|].
  apply IH. by apply happen_settled.
Qed.

Lemma keydown_props element event c :
  settled c → props (happen KEY (keydown element event) c).2 = props c.
Proof.
  intros Hc. pose proof Hc as (sc & Hi & Hs & Ht & Hx & Hl & Hb).
  cbn [happen]. rewrite Hl, dispatch_expected. case_decide as Hvis.
  - destruct (onInput_world sc event (world c)) as [Hlw Hxw].
    destruct (onInput KEY sc event (world c)) as [event' w'] eqn:Ho.
    cbn [snd] in *. case_decide; [done|].
    edestruct render_settles as (_ & Hp & _); [|exact Hp].
    intros el. cbn [installed world].
    unfold listeners_of. rewrite Hlw, Hi. apply Hl.
  - cbn [snd]. by rewrite decide_True.
Qed.

Lemma delivered_in_bounds element events : ∀ c,
  settled c →
  Forall (λ c', in_bounds (props_suggestions (props c)) (index (world c')))
    (after_each_delivered KEY element events c) ∧
  (props_suggestions (props c) ≠ [] → props_targetInput (props c) = Some element →
   length (after_each_delivered KEY element events c) = length events).
Proof.
  induction events as [|event events IH]; intros c Hc; [by split|].
  pose proof (happen_settled (keydown element event) c Hc) as Hc'.
  pose proof (keydown_props element event c Hc) as Hp.
  destruct (IH _ Hc') as [IHb IHl]. rewrite Hp in IHb, IHl.
  destruct Hc as (sc & Hi & Hs & Ht & Hx & Hl & Hb).
  cbn [after_each_delivered]. rewrite Hl. unfold expected_listeners.
  case_decide as Hvis.
  - split; [|intros; cbn [length]; f_equal; by apply IHl].
    apply Forall_cons. split; [|done].
    destruct Hc' as (sc' & _ & Hs' & _ & _ & _ & Hb'). rewrite <- Hp, <- Hs'.
    apply Hb'. rewrite Hs', Hp, <- Hs. apply Hvis.
  - split; [done|]. intros Hne Htarget. destruct Hvis. by rewrite Hs, Ht.
Qed.

(** *** The statements about the suggestion list *)

(** C6.  For every suggestion list, whatever happened to the component
    before, and for every sequence of key events in an element: after each
    event that reaches the component's listener the selection index lies
    within [0, suggestions.length - 1].  With a non-empty list and the
    target input present every event of the sequence reaches it. *)
Theorem selection_index_stays_in_bounds p hs element events :
  let c := after_all KEY hs (mount p) in
  Forall (λ c', in_bounds (props_suggestions (props c)) (index (world c')))
    (after_each_delivered KEY element events c) ∧
  (props_suggestions (props c) ≠ [] → props_targetInput (props c) = Some element →
   length (after_each_delivered KEY element events c) = length events).
Proof.
  intros c. apply delivered_in_bounds, after_all_settled, mount_settled.
Qed.

(** C7.  ARROW_UP moves the selection index by +1 and ARROW_DOWN by -1,
    each before clamping, and both suppress the event; the item of index
    [i] is rendered at position [length - 1 - i], so a larger index is an
    earlier item on screen. *)
Theorem arrow_keys_move_selection sc event w :
  NoDup [ARROW_UP KEY; ARROW_DOWN KEY; ENTER KEY; TAB KEY] →
  let last := (Z.of_nat (length (suggestions sc)) - 1)%Z in
  (key event = ARROW_UP KEY →
   onInput KEY sc event w
   = (stopPropagation (preventDefault event),
      mkWorld (clamp (index w + 1) 0 last) (listeners w) (validated w))) ∧
  (key event = ARROW_DOWN KEY →
   onInput KEY sc event w
   = (stopPropagation (preventDefault event),
      mkWorld (clamp (index w + -1) 0 last) (listeners w) (validated w))) ∧
  (∀ i u, suggestions sc !! i = Some u →
          rendered sc !! (length (suggestions sc) - 1 - i) = Some (i, u)).
Proof.
  intros Hd last. split_and!.
  - intros Hk. rewrite (onInput_action sc event w (moveSelection sc 1)); [done|].
    rewrite Hk. by apply actions_ARROW_UP.
  - intros Hk. rewrite (onInput_action sc event w (moveSelection sc (-1))); [done|].
    rewrite Hk. by apply actions_ARROW_DOWN.
  - intros i u Hi. unfold rendered.
    pose proof (lookup_lt_Some _ _ _ Hi) as Hlt.
    rewrite reverse_lookup by (rewrite length_imap; lia).
    rewrite length_imap, list_lookup_imap.
    replace (length (suggestions sc) - S (length (suggestions sc) - 1 - i)) with i by lia.
    by rewrite Hi.
Qed.

(** C8.  An Enter or Tab key event that reaches the component's listener:
    without shift, [onSelectionValidated] is called with the suggestion at
    the current selection index and the target input, and the event's
    default action and propagation are suppressed (both flags of the event
    are set); with shift nothing is committed and the event is left as it
    was. *)
Theorem enter_or_tab_commits_selection p hs element event :
  let c := after_all KEY hs (mount p) in
  key event = ENTER KEY ∨ key event = TAB KEY →
  listeners_of element (world c) ≠ [] →
  if shiftKey event
  then happen KEY (keydown element event) c = (event, c)
  else ∃ u,
    at_index (props_suggestions (props c)) (index (world c)) = Some u ∧
    happen KEY (keydown element event) c
    = (mkKeyboardEvent (key event) (shiftKey event) true true,
       mkComponent (props c)
         (mkWorld (index (world c)) (listeners (world c))
            (validated (world c) ++ [(Some u, element)]))
         (installed c) (renders c)).
Proof.
  intros c Hk Hdelivered.
  assert (Hc : settled c) by apply after_all_settled, mount_settled.
  destruct Hc as (sc & Hi & Hs & Ht & Hx & Hl & Hb).
  rewrite Hl in Hdelivered. unfold expected_listeners in Hdelivered.
  case_decide as Hvis; [|done]. destruct Hvis as [Hne Htarget].
  assert (Ha : actions KEY sc !! key event = Some (validateSelection sc))
    by (destruct Hk as [-> | ->]; [apply actions_ENTER|apply actions_TAB]).
  assert (Hhappen : happen KEY (keydown element event) c
            = let '(event, w) := validateSelection sc event (world c) in
              (event, if decide (index w = index (world c))
                      then mkComponent (props c) w (installed c) (renders c)
                      else render (mkComponent (props c) w (installed c) (renders c)))).
  { cbn [happen]. rewrite Hl, dispatch_expected, decide_True by done.
    by rewrite (onInput_action sc event (world c) _ Ha). }
  rewrite Hhappen. unfold validateSelection. rewrite Htarget.
  destruct (shiftKey event) eqn:Hshift; cbn [negb].
  - rewrite decide_True by done. by rewrite component_eta.
  - specialize (Hb Hne). unfold in_bounds in Hb.
    assert (is_Some (suggestions sc !! Z.to_nat (index (world c)))) as [u Hu]
      by (apply lookup_lt_is_Some; lia).
    assert (Hat : at_index (suggestions sc) (index (world c)) = Some u).
    { unfold at_index. destruct (Z.ltb_spec (index (world c)) 0); [lia|done]. }
    exists u. split; [by rewrite <- Hs|].
    rewrite Hx, Hat. unfold onSelectionValidated. cbn [index].
    rewrite decide_True by done.
    unfold stopPropagation, preventDefault.
    cbn [key shiftKey defaultPrevented propagationStopped].
    by rewrite Hshift.
Qed.

End Handlers.

(** C9.  Whatever happened to the mounted component: a keydown listener is
    registered on an element exactly when the suggestion list is non-empty
    and that element is the target input; every registered listener is the
    one of the pending effect; unmounting leaves no listener behind.  An
    effect run registers nothing when the list is empty or the target input
    is missing, and its cleanup removes exactly what it registered. *)
Theorem listener_attached_only_while_visible KEY p hs :
  let c := after_all KEY hs (mount p) in
  (∀ element,
     listeners_of element (world c) ≠ []
     ↔ props_suggestions (props c) ≠ [] ∧ props_targetInput (props c) = Some element) ∧
  (∀ element l, l ∈ listeners_of element (world c) → installed c = Some l) ∧
  (∀ element, listeners_of element (unmount c) = []) ∧
  (∀ sc w element,
     (suggestions sc = [] ∨ targetInput sc ≠ Some element →
      listeners_of element (effect sc w) = listeners_of element w) ∧
     (sc ∉ listeners_of element w →
      listeners_of element (cleanup sc (effect sc w)) = listeners_of element w)).
Proof.
  intros c.
  assert (Hc : settled c) by apply after_all_settled, mount_settled.
  pose proof (settled_tidy c Hc) as Htidy.
  destruct Hc as (sc & Hi & Hs & Ht & Hx & Hl & Hb).
  split_and!.
  - intros element. rewrite Hl, <- Hs, <- Ht. unfold expected_listeners.
    case_decide; naive_solver.
  - intros element l. rewrite Hl. unfold expected_listeners.
    case_decide; [|by intros ?%elem_of_nil].
    intros ->%list_elem_of_singleton. done.
  - intros element. by apply unmount_clears.
  - intros sc' w element. split.
    + intros Hnone. rewrite listeners_of_effect.
      rewrite decide_False; [done|]. intros [[? ?] _]. naive_solver.
    + apply cleanup_effect.
Qed.

(** *** Instances *)

(** Three suggestions, the first one selected: ArrowUp selects the second. *)
Lemma arrow_keys_move_selection_witness :
  NoDup [ARROW_UP dom_keys; ARROW_DOWN dom_keys; ENTER dom_keys; TAB dom_keys] ∧
  let sc := mkScope [alice; bob; carol] (Some 7) 0 0 in
  let event := mkKeyboardEvent "ArrowUp" false false false in
  onInput dom_keys sc event (mkWorld 0 ∅ [])
  = (mkKeyboardEvent "ArrowUp" false true true, mkWorld 1 ∅ []).
Proof.
  assert (H : NoDup [ARROW_UP dom_keys; ARROW_DOWN dom_keys; ENTER dom_keys;
                     TAB dom_keys]) by (apply (bool_decide_unpack _); vm_compute; exact I).
  split; [exact H|].
  exact (proj1 (arrow_keys_move_selection dom_keys
                  (mkScope [alice; bob; carol] (Some 7) 0 0)
                  (mkKeyboardEvent "ArrowUp" false false false)
                  (mkWorld 0 ∅ []) H) eq_refl).
Defined.

(** Three suggestions; after one ArrowUp, Enter commits the second one. *)
Lemma enter_or_tab_commits_selection_witness :
  let up := mkKeyboardEvent "ArrowUp" false false false in
  let enter := mkKeyboardEvent "Enter" false false false in
  let c := after_all dom_keys [keydown 7 up] (mount three_suggestions) in
  (key enter = ENTER dom_keys ∨ key enter = TAB dom_keys) ∧
  listeners_of 7 (world c) ≠ [] ∧
  ∃ u,
    at_index (props_suggestions (props c)) (index (world c)) = Some u ∧
    happen dom_keys (keydown 7 enter) c
    = (mkKeyboardEvent "Enter" false true true,
       mkComponent (props c)
         (mkWorld (index (world c)) (listeners (world c))
            (validated (world c) ++ [(Some u, 7)]))
         (installed c) (renders c)).
Proof.
  intros up enter c.
  assert (H1 : key enter = ENTER dom_keys ∨ key enter = TAB dom_keys)
    by (left; reflexivity).
  assert (H2 : listeners_of 7 (world c) ≠ []) by (vm_compute; discriminate).
  split; [exact H1|]. split; [exact H2|].
  exact (enter_or_tab_commits_selection dom_keys three_suggestions [keydown 7 up]
           7 enter H1 H2).
Defined.

(** The run of the second witness commits [bob]. *)
Example enter_commits_bob :
  let up := mkKeyboardEvent "ArrowUp" false false false in
  let enter := mkKeyboardEvent "Enter" false false false in
  validated (world (after_all dom_keys [keydown 7 up; keydown 7 enter]
                      (mount three_suggestions)))
  = [(Some bob, 7)].
Proof. vm_compute. reflexivity. Qed.

(** With no suggestions nothing is registered and keys change nothing. *)
Example no_suggestions_no_listener :
  let c := mount (mkProps [] (Some 7)) in
  listeners_of 7 (world c) = [] ∧
  after_each_delivered dom_keys 7 [mkKeyboardEvent "ArrowUp" false false false] c = [].
Proof. vm_compute. split; reflexivity. Qed.

End MentionProperties.

(* ===================================================================== *)
(** * Properties of the conversations sidebar                             *)
(* ===================================================================== *)

Module SidebarProperties.
Import Sidebar.

(** C10.  Every call of [changeTab] resets the conversations filter to the
    empty string and selects the target tab, and it calls
    [updateArchivedConversations] exactly when the target tab is ARCHIVES
    (then once, before anything else). *)
Theorem changeTab_resets_filter nextTab s :
  let '(s', effects) := changeTab nextTab s in
  conversationsFilter s' = "" ∧
  currentTab s' = nextTab ∧
  (updateArchivedConversations ∈ effects ↔ nextTab = ARCHIVES) ∧
  length (filter (λ e, e = updateArchivedConversations) effects)
  = (if decide (nextTab = ARCHIVES) then 1 else 0).
Proof.
  destruct nextTab; cbn; split_and!; try done; try set_solver.
Qed.

End SidebarProperties.

(* ===================================================================== *)
(** * Further properties of the modal manager                             *)
(* ===================================================================== *)

Module ModalsFurther.
Import Modals ModalsProperties.

Ltac unfold_writes :=
  cbv [mbind M_bind mret M_ret get modify emit throw
       set_content set_state set_queue set_inputValue set_optionChecked].

Section Further.
Variable t : string → string.
Variable moment_format : string → string → string.
Variable supportLink : string.

Local Abbreviation build_content := (build_content t moment_format supportLink).
Local Abbreviation _showModal := (_showModal t moment_format supportLink).
Local Abbreviation unqueue := (unqueue t moment_format supportLink).
Local Abbreviation showModal := (showModal t moment_format supportLink).
Local Abbreviation ready := (ready t moment_format supportLink).
Local Abbreviation onModalHidden := (onModalHidden t moment_format supportLink).
Local Abbreviation perform := (perform t moment_format supportLink).
Local Abbreviation run := (run t moment_format supportLink).
Local Abbreviation run_effects := (run_effects t moment_format supportLink).
Local Abbreviation showable := (showable t moment_format supportLink).
Local Abbreviation content_of := (content_of t moment_format supportLink).

(** *** Content construction *)

Lemma build_content_fields type options c :
  build_content type options = Normal c →
  currentType c = Some type ∧
  modalUie c = JsString type ∧
  actionFn c = from_option external noop (action options) ∧
  closeFn c = from_option external noop (close options) ∧
  secondaryFn c = from_option external noop (secondary options) ∧
  checkboxLabel c = js (text_option (default empty_text (text options))) ∧
  inputPlaceholder c = js (text_input (default empty_text (text options))) ∧
  onBgClick c = (if default false (preventClose options) then bg_noop else this_hide).
Proof.
  unfold Modals.build_content.
  repeat case_decide; try destruct (data options);
    intros [= <-]; cbn; split_and!; reflexivity.
Qed.

(** X1.  Whatever the modal type, the content record built for a request
    carries the type as [currentType] and [modalUie], the request's
    callbacks (or [noop]), its checkbox label and input placeholder; a
    click on the background hides the modal unless [preventClose] is
    set. *)
Theorem content_carries_request type options c :
  build_content type options = Normal c →
  currentType c = Some type ∧
  modalUie c = JsString type ∧
  actionFn c = from_option external noop (action options) ∧
  closeFn c = from_option external noop (close options) ∧
  secondaryFn c = from_option external noop (secondary options) ∧
  checkboxLabel c = js (text_option (default empty_text (text options))) ∧
  inputPlaceholder c = js (text_input (default empty_text (text options))) ∧
  onBgClick c = (if default false (preventClose options) then bg_noop else this_hide).
Proof.
  unfold Modals.build_content.
  repeat case_decide; try destruct (data options);
    intros [= <-]; cbn; split_and!; reflexivity.
Qed.

(** X2.  For requests as the JSDoc of [_showModal] types them ([options]
    an object or left out, [options.text] an object or left out, [data]
    absent, a flag or an array of device objects; [null] in none of these
    places) and of a supported type: building the content throws exactly
    when the type is ACCOUNT_NEW_DEVICES and [data] is not an array of
    devices; every other such request is shown. *)
Theorem unshowable_only_without_device_list r :
  supported (type r) = true →
  (showable r = false ↔
   type r = ACCOUNT_NEW_DEVICES ∧
   is_device_list (data (default empty_options (options r))) = false).
Proof.
  intros Hs. unfold Modals.showable. rewrite Hs. cbn [andb].
  apply bool_decide_eq_true in Hs. unfold TYPE_values in Hs.
  destruct r as [o ty]. cbn [type options] in *.
  set (opts := default empty_options o).
  repeat (apply elem_of_cons in Hs as [->|Hs]);
    [..|by apply elem_of_nil in Hs];
    unfold Modals.build_content; cbn;
    try (split; [discriminate|by intros [[=] _]]).
  destruct (data opts); cbn; naive_solver.
Qed.

(** X3.  A new-devices request without a device list, submitted while the
    manager is READY and idle, makes [showModal] throw; the request is
    lost, nothing is displayed or logged and the instance is as before. *)
Theorem new_devices_without_list_throws options vm :
  state vm = READY → queue vm = [] →
  is_device_list (data (default empty_options options)) = false →
  showModal ACCOUNT_NEW_DEVICES options vm = mkOutcome (Throw "TypeError") vm [].
Proof.
  intros Hs Hq Hd. rewrite showModal_idle by done.
  unfold Modals._showModal, Modals.build_content. cbn.
  by destruct (data (default empty_options options)).
Qed.

(** X5.  ACKNOWLEDGE modals replace a missing or empty action text and
    title by the localized defaults, and show the plain message only when
    no HTML message is given: with a non-empty HTML message [messageText]
    is [false]. *)
Theorem acknowledge_falls_back_to_defaults options :
  let text := default empty_text (text options) in
  ∃ c, build_content ACKNOWLEDGE options = Normal c ∧
       actionText c
       = (match text_action text with
          | Some s => if String.eqb s "" then JsString (t "modalAcknowledgeAction")
                      else JsString s
          | None => JsString (t "modalAcknowledgeAction")
          end) ∧
       titleText c
       = (match text_title text with
          | Some s => if String.eqb s "" then JsString (t "modalAcknowledgeHeadline")
                      else JsString s
          | None => JsString (t "modalAcknowledgeHeadline")
          end) ∧
       messageText c
       = (match text_htmlMessage text with
          | Some s => if String.eqb s "" then js (text_message text) else JsBool false
          | None => js (text_message text)
          end) ∧
       messageHtml c = js (text_htmlMessage text).
Proof.
  intros text. eexists. split; [reflexivity|]. cbn. fold text.
  unfold or_else, truthy.
  split_and!; try done.
  - destruct (text_action text) as [s|]; [|done]. by destruct (String.eqb s "").
  - destruct (text_title text) as [s|]; [|done]. by destruct (String.eqb s "").
  - destruct (text_htmlMessage text) as [s|]; [|done]. by destruct (String.eqb s "").
Qed.

(** *** Answering a modal *)

Lemma call_invoked f argument vm :
  call (from_option external noop f) argument vm
  = mkOutcome (Normal ()) vm (invoked f argument).
Proof. by destruct f. Qed.

Lemma content_of_built r :
  showable r = true →
  build_content (type r) (default empty_options (options r)) = Normal (content_of r).
Proof.
  unfold Modals.showable, Modals.content_of.
  intros [_ H]%andb_true_iff. by destruct (build_content _ _).
Qed.

(** X6.  [doAction] on the modal of a shown request calls the request's
    action, with the checkbox value for an OPTION modal, the input value
    for an INPUT modal and no argument otherwise, then its close callback,
    and leaves the manager CLOSING with content and queue as they were. *)
Theorem doAction_calls_action_then_close r pending vm :
  showable r = true →
  let opts := default empty_options (options r) in
  let shown := showing (content_of r) pending vm in
  doAction shown
  = mkOutcome (Normal ()) (closing shown)
      (invoked (action opts) (confirm_argument (type r) vm)
       ++ invoked (close opts) undefined).
Proof.
  intros Hr opts shown.
  destruct (build_content_fields _ _ _ (content_of_built r Hr))
    as (Hty & _ & Ha & Hc & _).
  unfold doAction, confirm, hide, confirm_argument. unfold_writes.
  cbn [result after emitted content optionChecked inputValue shown showing].
  rewrite Hty, Ha. fold opts.
  destruct (decide (type r = OPTION)) as [Ho|Ho].
  - rewrite bool_decide_eq_true_2 by (by rewrite Ho).
    cbn. rewrite call_invoked. cbn. rewrite Hc. fold opts.
    rewrite call_invoked. reflexivity.
  - rewrite bool_decide_eq_false_2 by congruence.
    destruct (decide (type r = INPUT)) as [Hi|Hi].
    + rewrite bool_decide_eq_true_2 by (by rewrite Hi).
      cbn. rewrite call_invoked. cbn. rewrite Hc. fold opts.
      rewrite call_invoked. reflexivity.
    + rewrite bool_decide_eq_false_2 by congruence.
      cbn. rewrite call_invoked. cbn. rewrite Hc. fold opts.
      rewrite call_invoked. reflexivity.
Qed.

(** X7.  On the modal of a shown request [hide] calls the close callback,
    and [doSecondary] the secondary callback and then the close callback;
    both leave the manager CLOSING with content and queue as they were. *)
Theorem doSecondary_calls_secondary_then_close r pending vm :
  showable r = true →
  let opts := default empty_options (options r) in
  let shown := showing (content_of r) pending vm in
  hide shown
  = mkOutcome (Normal ()) (closing shown) (invoked (close opts) undefined) ∧
  doSecondary shown
  = mkOutcome (Normal ()) (closing shown)
      (invoked (secondary opts) undefined ++ invoked (close opts) undefined).
Proof.
  intros Hr opts shown.
  destruct (build_content_fields _ _ _ (content_of_built r Hr))
    as (_ & _ & _ & Hc & Hsec & _).
  subst shown. unfold doSecondary, hide, showing. unfold_writes.
  cbn [result after emitted content optionChecked inputValue queue].
  rewrite Hc, Hsec. fold opts. split.
  - rewrite call_invoked. reflexivity.
  - rewrite call_invoked. cbn [result after emitted content]. rewrite Hc. fold opts.
    rewrite call_invoked. reflexivity.
Qed.

(** *** Call sequences *)

Lemma run_effects_cons c calls vm :
  run_effects (c :: calls) vm
  = emitted (perform c vm) ++ run_effects calls (after (perform c vm)).
Proof. reflexivity. Qed.

(** X8.  While the manager is not READY, in particular while a modal is
    OPEN or CLOSING, [showModal] calls of any type only append their
    requests to the queue: lifecycle state, content, input and checkbox
    values stay as they are and nothing is logged or called. *)
Theorem showModal_never_replaces_modal rs vm :
  state vm ≠ READY →
  run (submit <$> rs) vm = with_queue (queue vm ++ rs) vm ∧
  run_effects (submit <$> rs) vm = [].
Proof.
  intros Hs. split; [by apply run_submit_not_READY|].
  revert vm Hs. induction rs as [|r rs IH]; intros vm Hs; [done|].
  rewrite fmap_cons, run_effects_cons. cbn [perform submit].
  rewrite showModal_not_READY by done. cbn [emitted after app].
  by apply IH.
Qed.

(** X9.  Requests that cannot be shown are dropped one per [unqueue] call:
    when the manager is READY and the queue starts with [n] such requests
    followed by one that can be shown, [n+1] calls of [unqueue] show that
    request. *)
Theorem unqueue_calls_reach_showable dropped r pending vm :
  state vm = READY →
  queue vm = dropped ++ r :: pending →
  Forall (λ d, showable d = false) dropped →
  showable r = true →
  run (replicate (S (length dropped)) call_unqueue) vm
  = showing (content_of r) pending vm.
Proof.
  revert vm. induction dropped as [|d dropped IH]; intros vm Hs Hq Hd Hr.
  - cbn [length replicate]. rewrite run_cons. cbn [perform].
    by rewrite (unqueue_showable t moment_format supportLink vm r pending).
  - apply Forall_cons in Hd as [Hd Hrest].
    cbn [length]. change (replicate (S (S (length dropped))) call_unqueue)
      with (call_unqueue :: replicate (S (length dropped)) call_unqueue).
    rewrite run_cons. cbn [perform].
    rewrite (unqueue_not_showable t moment_format supportLink vm d
               (dropped ++ r :: pending)) by done.
    by rewrite IH.
Qed.

(** What [unqueue] does to the queue. *)
Lemma unqueue_queue vm :
  ∃ n, (n ≤ length (queue vm))%nat ∧ queue (after (unqueue vm)) = drop n (queue vm).
Proof.
  destruct (unqueue_cases t moment_format supportLink vm)
    as [->|(r & rest & Hs & Hq & H)]; [by exists 0; split; [lia|]|].
  exists 1. rewrite Hq. split; [cbn; lia|].
  by destruct (Modals.showable _ _ _ r); rewrite H.
Qed.

Lemma perform_queue c vm :
  ∃ n, (n ≤ length (queue vm ++ submitted [c]))%nat ∧
       queue (after (perform c vm)) = drop n (queue vm ++ submitted [c]).
Proof.
  destruct c as [ty o| | | | | | |];
    cbn [perform]; unfold submitted; cbn [omap]; rewrite ?app_nil_r.
  - rewrite showModal_unqueue.
    apply (unqueue_queue (with_queue (queue vm ++ [mkRequest o ty]) vm)).
  - rewrite ready_unqueue. apply (unqueue_queue (awaiting vm)).
  - apply unqueue_queue.
  - rewrite after_confirm. by exists 0; split; [lia|].
  - rewrite after_doAction. by exists 0; split; [lia|].
  - rewrite after_doSecondary. by exists 0; split; [lia|].
  - rewrite after_hide. by exists 0; split; [lia|].
  - rewrite onModalHidden_unqueue. apply (unqueue_queue (reset vm)).
Qed.

Lemma submitted_cons c calls : submitted (c :: calls) = submitted [c] ++ submitted calls.
Proof. unfold submitted. cbn. by destruct c. Qed.

Lemma run_queue calls : ∀ vm,
  ∃ n, (n ≤ length (queue vm ++ submitted calls))%nat ∧
       queue (run calls vm) = drop n (queue vm ++ submitted calls).
Proof.
  induction calls as [|c calls IH]; intros vm.
  - exists 0. cbn. rewrite app_nil_r. split; [lia|done].
  - rewrite run_cons, submitted_cons.
    destruct (perform_queue c vm) as (m & Hm & Hq).
    destruct (IH (after (perform c vm))) as (n & Hn & ->).
    rewrite Hq in *.
    rewrite <- (drop_app_le _ (submitted calls) m) in * by done.
    rewrite drop_drop, app_assoc.
    exists (m + n). split; [|done].
    rewrite length_drop in Hn. rewrite !length_app in *. lia.
Qed.

(** X10.  The queue is never reordered and only shrinks at its front:
    after any sequence of method calls on the constructed instance the
    queue is a suffix of the submitted requests, in arrival order. *)
Theorem queue_is_suffix_of_submitted calls :
  ∃ n, queue (run calls constructor) = drop n (submitted calls).
Proof.
  destruct (run_queue calls constructor) as (n & _ & H). by exists n.
Qed.

Lemma unqueue_shows among vm :
  shows_one_of t moment_format supportLink among vm →
  shows_one_of t moment_format supportLink among (after (unqueue vm)).
Proof.
  intros [Hopen Hqueue].
  destruct (unqueue_cases t moment_format supportLink vm)
    as [->|(r & rest & Hs & Hq & H)]; [done|].
  assert (Hr : r ∈ among) by (apply Hqueue; rewrite Hq; left).
  assert (Hrest : ∀ r', r' ∈ rest → r' ∈ among)
    by (intros r' Hr'; apply Hqueue; rewrite Hq; by right).
  destruct (Modals.showable _ _ _ r) eqn:Hshow; rewrite H; split; cbn.
  - intros _. by exists r.
  - done.
  - rewrite Hs. discriminate.
  - done.
Qed.

Lemma perform_shows c among vm :
  shows_one_of t moment_format supportLink among vm →
  shows_one_of t moment_format supportLink (among ++ submitted [c])
    (after (perform c vm)).
Proof.
  intros [Hopen Hqueue].
  assert (Hwider : shows_one_of t moment_format supportLink
                     (among ++ submitted [c]) vm).
  { split; [|intros r Hr; apply elem_of_app; left; by apply Hqueue].
    intros Hs. destruct (Hopen Hs) as (r & Hr & H). exists r.
    split; [apply elem_of_app; by left|done]. }
  destruct Hwider as [Hopen' Hqueue'].
  destruct c as [ty o| | | | | | |]; cbn [perform].
  - rewrite showModal_unqueue. apply unqueue_shows. split; [exact Hopen'|].
    cbn. intros r [Hr|Hr]%elem_of_app; [by apply Hqueue'|].
    apply elem_of_app. right. by apply list_elem_of_singleton in Hr as ->; left.
  - rewrite ready_unqueue. apply unqueue_shows. split; [discriminate|done].
  - by apply unqueue_shows.
  - by rewrite after_confirm.
  - rewrite after_doAction. split; [discriminate|done].
  - rewrite after_doSecondary. split; [discriminate|done].
  - rewrite after_hide. split; [discriminate|done].
  - rewrite onModalHidden_unqueue. apply unqueue_shows. split; [discriminate|done].
Qed.

Lemma run_shows calls : ∀ among vm,
  shows_one_of t moment_format supportLink among vm →
  shows_one_of t moment_format supportLink (among ++ submitted calls) (run calls vm).
Proof.
  induction calls as [|c calls IH]; intros among vm H.
  - cbn. by rewrite app_nil_r.
  - rewrite run_cons, submitted_cons, app_assoc. by apply IH, perform_shows.
Qed.

(** X11.  After any sequence of method calls on the constructed instance,
    a visible modal shows the content of a request that was submitted
    through [showModal] and that can be shown; its type is supported. *)
Theorem visible_modal_shows_submitted_request calls :
  let vm := run calls constructor in
  isModalVisible vm = true →
  ∃ r, r ∈ submitted calls ∧ showable r = true ∧ supported (type r) = true ∧
       content vm = content_of r ∧ currentType (content vm) = Some (type r).
Proof.
  intros vm Hvisible. apply bool_decide_eq_true in Hvisible.
  destruct (run_shows calls [] constructor) as [Hopen _].
  { split; [discriminate|]. intros r Hr. by apply elem_of_nil in Hr. }
  destruct (Hopen Hvisible) as (r & Hr & Hshow & Hcontent).
  exists r. split_and!; try done.
  - unfold Modals.showable in Hshow. by apply andb_true_iff in Hshow as [? _].
  - fold vm in Hcontent. rewrite Hcontent.
    by destruct (build_content_fields _ _ _ (content_of_built r Hshow)).
Qed.

(** *** What is logged *)

Lemma emitted_unqueue vm message :
  Warn message ∈ emitted (unqueue vm) →
  ∃ r rest, queue vm = r :: rest ∧ supported (type r) = false ∧
            Warn message = warning (type r).
Proof.
  destruct (decide (state vm = READY)) as [Hs|Hs];
    [|rewrite unqueue_not_READY by done; by intros ?%elem_of_nil].
  destruct (queue vm) as [|r rest] eqn:Hq;
    [rewrite unqueue_empty by done; by intros ?%elem_of_nil|].
  rewrite (unqueue_READY t moment_format supportLink vm r rest) by done.
  unfold Modals._showModal. destruct (supported (type r)) eqn:Hsup; cbn [negb].
  - destruct (build_content _ _); cbn; by intros ?%elem_of_nil.
  - cbn. intros ->%list_elem_of_singleton. by exists r, rest.
Qed.

Lemma emitted_ready vm :
  emitted (ready vm) = ApplyBindings "modals" :: emitted (unqueue (awaiting vm)).
Proof.
  unfold Modals.ready. unfold_monad. cbn. fold (awaiting vm).
  by destruct (unqueue _) as [[] ? ?].
Qed.

Lemma answering_never_warns c vm message :
  c = call_confirm ∨ c = call_doAction ∨ c = call_doSecondary ∨ c = call_hide →
  Warn message ∉ emitted (perform c vm).
Proof.
  intros [-> | [-> | [-> | ->]]]; cbn [perform].
  - unfold confirm. unfold_monad. cbn.
    repeat case_bool_decide; cbn; destruct (actionFn (content vm)); cbn; set_solver.
  - unfold doAction, confirm, hide. unfold_monad. cbn.
    repeat case_bool_decide; cbn; destruct (actionFn (content vm)); cbn;
      destruct (closeFn (content vm)); cbn; set_solver.
  - unfold doSecondary, hide. unfold_monad. cbn.
    destruct (secondaryFn (content vm)); cbn;
      destruct (closeFn (content vm)); cbn; set_solver.
  - unfold hide. unfold_monad. cbn.
    destruct (closeFn (content vm)); cbn; set_solver.
Qed.

Lemma perform_warns c vm message :
  Warn message ∈ emitted (perform c vm) →
  ∃ r, r ∈ queue vm ++ submitted [c] ∧ supported (type r) = false ∧
       Warn message = warning (type r).
Proof.
  destruct c as [ty o| | | | | | |];
    try (intros H; by apply answering_never_warns in H; [|naive_solver]);
    cbn [perform].
  - change (submitted [call_showModal ty o]) with [mkRequest o ty].
    rewrite showModal_unqueue. intros (r & rest & Hq & H)%emitted_unqueue.
    exists r. split; [|done]. cbn in Hq. rewrite Hq. left.
  - change (submitted [call_ready]) with (@nil Request). rewrite app_nil_r.
    rewrite emitted_ready.
    intros [[=]|(r & rest & Hq & H)%emitted_unqueue]%elem_of_cons.
    exists r. split; [|done]. cbn in Hq. rewrite Hq. left.
  - change (submitted [call_unqueue]) with (@nil Request). rewrite app_nil_r.
    intros (r & rest & Hq & H)%emitted_unqueue.
    exists r. split; [|done]. rewrite Hq. left.
  - change (submitted [call_onModalHidden]) with (@nil Request). rewrite app_nil_r.
    rewrite onModalHidden_unqueue. intros (r & rest & Hq & H)%emitted_unqueue.
    exists r. split; [|done]. cbn in Hq. rewrite Hq. left.
Qed.

Lemma run_warns calls : ∀ vm message,
  Warn message ∈ run_effects calls vm →
  ∃ r, r ∈ queue vm ++ submitted calls ∧ supported (type r) = false ∧
       Warn message = warning (type r).
Proof.
  induction calls as [|c calls IH]; intros vm message; [by intros ?%elem_of_nil|].
  rewrite run_effects_cons, submitted_cons, app_assoc.
  intros [H|H]%elem_of_app.
  - destruct (perform_warns c vm message H) as (r & Hr & Hrest).
    exists r. split; [|done]. apply elem_of_app. by left.
  - destruct (IH _ _ H) as (r & Hr & Hrest). exists r. split; [|done].
    destruct (perform_queue c vm) as (n & _ & Hq). rewrite Hq in Hr.
    apply elem_of_app in Hr as [Hr|Hr]; apply elem_of_app; [left|by right].
    by apply (subseteq_drop n).
Qed.

(** X12.  Every warning logged by a sequence of method calls on the
    constructed instance is the "not supported" warning of a submitted
    request whose type is not in TYPE; when all submitted types are
    supported nothing is ever logged. *)
Theorem warnings_name_unsupported_requests calls message :
  Warn message ∈ run_effects calls constructor →
  ∃ r, r ∈ submitted calls ∧ supported (type r) = false ∧
       message = "Modal of type '" +:+ type r +:+ "' is not supported".
Proof.
  intros H. destruct (run_warns calls constructor message H) as (r & Hr & Hs & Hw).
  exists r. split_and!; [done..|]. by injection Hw.
Qed.

(** *** The start-up state *)

Lemma unqueue_not_NONE vm :
  state vm ≠ NONE → state (after (unqueue vm)) ≠ NONE.
Proof.
  intros Hs. destruct (unqueue_cases t moment_format supportLink vm)
    as [->|(r & rest & _ & _ & H)]; [done|].
  by destruct (Modals.showable _ _ _ r); rewrite H.
Qed.

Lemma perform_not_NONE c vm :
  state vm ≠ NONE ∨ (c ≠ call_unqueue ∧ c ≠ call_confirm ∧ submitted [c] = []) →
  state (after (perform c vm)) ≠ NONE.
Proof.
  intros H. destruct c as [ty o| | | | | | |]; cbn [perform].
  - destruct H as [H|(_ & _ & [=])]. rewrite showModal_unqueue.
    by apply unqueue_not_NONE.
  - rewrite ready_unqueue. by apply unqueue_not_NONE.
  - destruct H as [H|([] & _)]; [|done]. by apply unqueue_not_NONE.
  - destruct H as [H|(_ & [] & _)]; [|done]. by rewrite after_confirm.
  - by rewrite after_doAction.
  - by rewrite after_doSecondary.
  - by rewrite after_hide.
  - rewrite onModalHidden_unqueue. by apply unqueue_not_NONE.
Qed.

Lemma run_not_NONE calls : ∀ vm, state vm ≠ NONE → state (run calls vm) ≠ NONE.
Proof.
  induction calls as [|c calls IH]; intros vm Hs; [done|].
  rewrite run_cons. apply IH, perform_not_NONE. by left.
Qed.

Lemma run_while_NONE calls : ∀ q,
  state (run calls (with_queue q constructor)) = NONE →
  run calls (with_queue q constructor) = with_queue (q ++ submitted calls) constructor ∧
  run_effects calls (with_queue q constructor) = [].
Proof.
  induction calls as [|c calls IH]; intros q; [by rewrite app_nil_r|].
  rewrite run_cons, run_effects_cons, submitted_cons, app_assoc.
  destruct c as [ty o| | | | | | |].
  - cbn [perform]. rewrite showModal_not_READY by discriminate.
    cbn [after emitted app]. apply (IH (q ++ [mkRequest o ty])).
  - intros H. exfalso. revert H. apply run_not_NONE, perform_not_NONE. by right.
  - cbn [perform]. rewrite unqueue_not_READY by discriminate.
    cbn [after emitted app]. change (submitted [call_unqueue]) with (@nil Request).
    rewrite app_nil_r. apply IH.
  - change (perform call_confirm (with_queue q constructor))
      with (mkOutcome (Normal ()) (with_queue q constructor) []).
    cbn [after emitted app]. change (submitted [call_confirm]) with (@nil Request).
    rewrite app_nil_r. apply IH.
  - intros H. exfalso. revert H. apply run_not_NONE, perform_not_NONE. by right.
  - intros H. exfalso. revert H. apply run_not_NONE, perform_not_NONE. by right.
  - intros H. exfalso. revert H. apply run_not_NONE, perform_not_NONE. by right.
  - intros H. exfalso. revert H. apply run_not_NONE, perform_not_NONE. by right.
Qed.

(** X13.  NONE is the state before start-up only.  As long as the manager
    is in NONE nothing has been shown, dropped, logged or called: the
    instance is the constructed one with every submitted request in its
    queue.  Once the manager has left NONE no sequence of method calls
    brings it back. *)
Theorem start_up_state_only_at_start calls :
  let vm := run calls constructor in
  (state vm = NONE →
   vm = with_queue (submitted calls) constructor ∧
   run_effects calls constructor = []) ∧
  (state vm ≠ NONE → ∀ more, state (run more vm) ≠ NONE).
Proof.
  intros vm. split.
  - apply (run_while_NONE calls []).
  - intros Hs more. by apply run_not_NONE.
Qed.

End Further.

(** *** Instances *)

Local Abbreviation run0 := (run t_keys moment_raw support_url).
Local Abbreviation showable0 := (showable t_keys moment_raw support_url).
Local Abbreviation content_of0 := (content_of t_keys moment_raw support_url).

Lemma content_carries_request_witness :
  build_content t_keys moment_raw support_url OPTION
    (default empty_options (options option_request))
  = Normal (content_of0 option_request) ∧
  currentType (content_of0 option_request) = Some OPTION ∧
  actionFn (content_of0 option_request) = external 5 ∧
  onBgClick (content_of0 option_request) = this_hide.
Proof.
  assert (H : build_content t_keys moment_raw support_url OPTION
                (default empty_options (options option_request))
              = Normal (content_of0 option_request)) by reflexivity.
  split; [exact H|].
  destruct (content_carries_request t_keys moment_raw support_url _ _ _ H)
    as (H1 & _ & H3 & _ & _ & _ & _ & H8).
  split_and!; [exact H1|exact H3|exact H8].
Defined.

Lemma unshowable_only_without_device_list_witness :
  supported (type new_devices_without_list) = true ∧
  showable0 new_devices_without_list = false.
Proof.
  assert (H : supported (type new_devices_without_list) = true) by reflexivity.
  split; [exact H|].
  apply (unshowable_only_without_device_list t_keys moment_raw support_url
           new_devices_without_list H).
  split; reflexivity.
Defined.

Lemma new_devices_without_list_throws_witness :
  let idle := after (ready t_keys moment_raw support_url constructor) in
  (state idle = READY ∧ queue idle = [] ∧
   is_device_list (data (default empty_options None)) = false) ∧
  showModal t_keys moment_raw support_url ACCOUNT_NEW_DEVICES None idle
  = mkOutcome (Throw "TypeError") idle [].
Proof.
  intros idle. split; [by split_and!|].
  apply (new_devices_without_list_throws t_keys moment_raw support_url None idle);
    reflexivity.
Defined.

Lemma doAction_calls_action_then_close_witness :
  showable0 option_request = true ∧
  emitted (doAction (showing (content_of0 option_request) [] constructor))
  = [Call 5 (JsBool false); Call 6 undefined].
Proof.
  assert (H : showable0 option_request = true) by reflexivity.
  split; [exact H|].
  exact (f_equal emitted
           (doAction_calls_action_then_close t_keys moment_raw support_url
              option_request [] constructor H)).
Defined.

Lemma doSecondary_calls_secondary_then_close_witness :
  showable0 option_request = true ∧
  emitted (doSecondary (showing (content_of0 option_request) [] constructor))
  = [Call 7 undefined; Call 6 undefined].
Proof.
  assert (H : showable0 option_request = true) by reflexivity.
  split; [exact H|].
  exact (f_equal emitted
           (proj2 (doSecondary_calls_secondary_then_close t_keys moment_raw
                     support_url option_request [] constructor H))).
Defined.

Lemma showModal_never_replaces_modal_witness :
  let open := run0 [call_ready; submit confirm_request] constructor in
  state open ≠ READY ∧
  run0 (submit <$> [unknown_request; input_request]) open
  = with_queue [unknown_request; input_request] open.
Proof.
  intros open. assert (H : state open ≠ READY) by discriminate.
  split; [exact H|].
  exact (proj1 (showModal_never_replaces_modal t_keys moment_raw support_url
                  [unknown_request; input_request] open H)).
Defined.

Lemma unqueue_calls_reach_showable_witness :
  let stranded := run0 [submit unknown_request; submit new_devices_without_list;
                        submit confirm_request; call_ready] constructor in
  (state stranded = READY ∧
   queue stranded = [new_devices_without_list] ++ confirm_request :: [] ∧
   Forall (λ d, showable0 d = false) [new_devices_without_list] ∧
   showable0 confirm_request = true) ∧
  run0 (replicate 2 call_unqueue) stranded
  = showing (content_of0 confirm_request) [] stranded.
Proof.
  intros stranded.
  assert (H1 : state stranded = READY) by reflexivity.
  assert (H2 : queue stranded = [new_devices_without_list] ++ confirm_request :: [])
    by reflexivity.
  assert (H3 : Forall (λ d, showable0 d = false) [new_devices_without_list])
    by (repeat constructor).
  assert (H4 : showable0 confirm_request = true) by reflexivity.
  split; [by split_and!|].
  exact (unqueue_calls_reach_showable t_keys moment_raw support_url
           [new_devices_without_list] confirm_request [] stranded H1 H2 H3 H4).
Defined.

Lemma visible_modal_shows_submitted_request_witness :
  let calls := [submit unknown_request; call_ready; submit confirm_request] in
  isModalVisible (run0 calls constructor) = true ∧
  ∃ r, r ∈ submitted calls ∧ showable0 r = true ∧ supported (type r) = true ∧
       content (run0 calls constructor) = content_of0 r ∧
       currentType (content (run0 calls constructor)) = Some (type r).
Proof.
  intros calls.
  assert (H : isModalVisible (run0 calls constructor) = true) by reflexivity.
  split; [exact H|].
  exact (visible_modal_shows_submitted_request t_keys moment_raw support_url calls H).
Defined.

Lemma warnings_name_unsupported_requests_witness :
  let calls := [call_ready; submit unknown_request] in
  let message := "Modal of type 'modal-unknown' is not supported" in
  Warn message ∈ run_effects t_keys moment_raw support_url calls constructor ∧
  ∃ r, r ∈ submitted calls ∧ supported (type r) = false ∧
       message = "Modal of type '" +:+ type r +:+ "' is not supported".
Proof.
  intros calls message.
  assert (H : Warn message ∈ run_effects t_keys moment_raw support_url calls
                constructor) by (vm_compute; right; left).
  split; [exact H|].
  exact (warnings_name_unsupported_requests t_keys moment_raw support_url
           calls message H).
Defined.

End ModalsFurther.

(* ===================================================================== *)
(** * Further properties of the mention suggestion list                   *)
(* ===================================================================== *)

Module MentionFurther.
Import Mention MentionProperties.

Lemma render_index_eq c :
  tidy c →
  index (world (render c))
  = clamp (index (world c)) 0 (Z.of_nat (length (props_suggestions (props c))) - 1).
Proof.
  intros Htidy.
  destruct (commit_spec c Htidy) as (Hp & _ & Hx & _ & Ht).
  unfold render. cbn zeta. case_decide as Hsame; [done|].
  destruct (commit_spec (commit c) Ht) as (_ & _ & Hx' & _).
  rewrite Hx', Hp, Hx. apply clamp_idempotent.
Qed.

Section Keys.

Variable KEY : KeyTable.

(** What a keydown does to a component at rest. *)
Lemma keydown_settled element event c sc :
  settled c → installed c = Some sc →
  happen KEY (keydown element event) c
  = if decide (suggestions sc ≠ [] ∧ targetInput sc = Some element)
    then let '(event', w) := onInput KEY sc event (world c) in
         let c' := mkComponent (props c) w (installed c) (renders c) in
         (event', if decide (index w = index (world c)) then c' else render c')
    else (event, c).
Proof.
  intros (sc' & Hi & Hs & Ht & Hx & Hl & Hb) Hsc.
  assert (sc' = sc) as -> by congruence.
  cbn [happen]. rewrite Hl, dispatch_expected. case_decide; [done|].
  rewrite decide_True by done. by rewrite component_eta.
Qed.

Lemma actions_other sc k :
  k ∉ [ARROW_UP KEY; ARROW_DOWN KEY; ENTER KEY; TAB KEY] →
  actions KEY sc !! k = None.
Proof.
  intros Hk. unfold actions, Action.
  rewrite !lookup_insert_ne by set_solver. apply lookup_empty.
Qed.

(** X14.  A key other than ArrowUp, ArrowDown, Enter and Tab changes
    nothing: the selection, the listeners and the committed selections stay
    and the event is neither prevented nor stopped, so the key reaches the
    input as usual. *)
Theorem other_keys_pass_through p hs element event :
  key event ∉ [ARROW_UP KEY; ARROW_DOWN KEY; ENTER KEY; TAB KEY] →
  let c := after_all KEY hs (mount p) in
  happen KEY (keydown element event) c = (event, c).
Proof.
  intros Hk c.
  assert (Hc : settled c) by apply after_all_settled, mount_settled.
  pose proof Hc as (sc & Hi & _).
  rewrite (keydown_settled element event c sc) by done.
  case_decide; [|done].
  unfold onInput, Action. rewrite (actions_other sc) by done.
  rewrite decide_True by done. by rewrite component_eta.
Qed.

(** X15.  Arrow keys never commit a selection, and Enter and Tab never
    move it. *)
Theorem keys_do_one_thing p hs element event :
  NoDup [ARROW_UP KEY; ARROW_DOWN KEY; ENTER KEY; TAB KEY] →
  let c := after_all KEY hs (mount p) in
  let c' := (happen KEY (keydown element event) c).2 in
  (key event = ARROW_UP KEY ∨ key event = ARROW_DOWN KEY →
   validated (world c') = validated (world c)) ∧
  (key event = ENTER KEY ∨ key event = TAB KEY →
   index (world c') = index (world c)).
Proof.
  intros Hd c c'.
  assert (Hc : settled c) by apply after_all_settled, mount_settled.
  pose proof Hc as (sc & Hi & Hs & Ht & Hx & Hl & Hb).
  subst c'. rewrite (keydown_settled element event c sc) by done.
  case_decide as Hvis; [|done]. split.
  - intros Hk.
    assert (∃ delta, onInput KEY sc event (world c)
                     = moveSelection sc delta event (world c)) as [delta ->].
    { destruct Hk as [Hk|Hk]; eexists; apply onInput_action; rewrite Hk;
        [by apply actions_ARROW_UP|by apply actions_ARROW_DOWN]. }
    unfold moveSelection. cbn [snd].
    set (w := updateSelectedIndex sc delta (world c)).
    destruct (settled_after_update c w Hc) as (_ & _ & Hv); [done| |exact Hv].
    intros _. rewrite <- Hs. apply clamp_in_bounds.
    destruct Hvis as [Hne _]. destruct (suggestions sc); [done|]. cbn [length]. lia.
  - intros Hk.
    rewrite (onInput_action KEY sc event (world c) (validateSelection sc))
      by (destruct Hk as [-> | ->]; [apply actions_ENTER|apply actions_TAB]).
    unfold validateSelection. destruct (targetInput sc); [|by rewrite decide_True].
    destruct (shiftKey event); cbn [negb]; by rewrite decide_True.
Qed.

(** X16.  On a non-empty list with the target input present, ArrowUp
    moves the selection one entry up the list and stops at the last entry,
    ArrowDown moves it one entry down and stops at the first; both
    suppress the event, also when the selection cannot move. *)
Theorem arrows_step_and_stop_at_the_ends p hs element event :
  NoDup [ARROW_UP KEY; ARROW_DOWN KEY; ENTER KEY; TAB KEY] →
  let c := after_all KEY hs (mount p) in
  props_suggestions (props c) ≠ [] →
  props_targetInput (props c) = Some element →
  let last := (Z.of_nat (length (props_suggestions (props c))) - 1)%Z in
  let result := happen KEY (keydown element event) c in
  (key event = ARROW_UP KEY →
   result.1 = mkKeyboardEvent (key event) (shiftKey event) true true ∧
   index (world result.2) = Z.min (index (world c) + 1) last) ∧
  (key event = ARROW_DOWN KEY →
   result.1 = mkKeyboardEvent (key event) (shiftKey event) true true ∧
   index (world result.2) = Z.max (index (world c) - 1) 0).
Proof.
  intros Hd c Hne Htarget last result.
  assert (Hc : settled c) by apply after_all_settled, mount_settled.
  pose proof Hc as (sc & Hi & Hs & Ht & Hx & Hl & Hb).
  assert (Hbounds : in_bounds (suggestions sc) (index (world c)))
    by (apply Hb; by rewrite Hs).
  unfold in_bounds in Hbounds. rewrite Hs in Hbounds. fold last in Hbounds.
  assert (Hmove : ∀ delta,
    onInput KEY sc event (world c) = moveSelection sc delta event (world c) →
    result.1 = mkKeyboardEvent (key event) (shiftKey event) true true ∧
    index (world result.2) = clamp (index (world c) + delta) 0 last).
  { intros delta Ho. subst result.
    rewrite (keydown_settled element event c sc) by done.
    rewrite decide_True by (by rewrite Hs, Ht). rewrite Ho.
    unfold moveSelection. cbn [fst snd]. split; [done|].
    set (w := updateSelectedIndex sc delta (world c)).
    assert (Hw : index w = clamp (index (world c) + delta) 0 last)
      by (subst w last; cbn; by rewrite Hs).
    case_decide as Hsame; [done|].
    rewrite render_index_eq.
    - cbn [world props]. fold last. rewrite Hw. apply clamp_idempotent.
    - intros el. cbn [installed world]. rewrite Hi.
      unfold listeners_of. cbn. apply Hl. }
  split; intros Hk.
  - destruct (Hmove 1%Z) as [H1 H2].
    { apply onInput_action. rewrite Hk. by apply actions_ARROW_UP. }
    split; [done|]. rewrite H2. unfold clamp. lia.
  - destruct (Hmove (-1)%Z) as [H1 H2].
    { apply onInput_action. rewrite Hk. by apply actions_ARROW_DOWN. }
    split; [done|]. rewrite H2. unfold clamp. lia.
Qed.

(** X18.  Pointing at an item selects it: after the pointer enters the
    item of index [item], an Enter or Tab without shift commits exactly
    that suggestion, once. *)
Theorem hovered_item_is_committed p hs element event item u :
  let c := after_all KEY hs (mount p) in
  props_suggestions (props c) !! item = Some u →
  props_targetInput (props c) = Some element →
  key event = ENTER KEY ∨ key event = TAB KEY →
  shiftKey event = false →
  let hovered := (happen KEY (mouse_enter item) c).2 in
  let result := happen KEY (keydown element event) hovered in
  index (world hovered) = Z.of_nat item ∧
  result.1 = mkKeyboardEvent (key event) (shiftKey event) true true ∧
  validated (world result.2) = validated (world c) ++ [(Some u, element)] ∧
  index (world result.2) = Z.of_nat item.
Proof.
  intros c Hu Htarget Hk Hshift hovered result.
  assert (Hc : settled c) by apply after_all_settled, mount_settled.
  pose proof (lookup_lt_Some _ _ _ Hu) as Hlt.
  set (w := setSelectedSuggestionIndex (λ _, Z.of_nat item) (world c)).
  assert (Hbw : in_bounds (props_suggestions (props c)) (index w))
    by (unfold in_bounds; cbn; lia).
  destruct (settled_after_update c w Hc eq_refl (λ _, Hbw)) as (Hh & Hp & Hv).
  assert (Hhovered : hovered
            = if decide (index w = index (world c))
              then mkComponent (props c) w (installed c) (renders c)
              else render (mkComponent (props c) w (installed c) (renders c))).
  { subst hovered. cbn [happen]. apply Nat.ltb_lt in Hlt. by rewrite Hlt. }
  rewrite <- Hhovered in Hh, Hp, Hv.
  assert (Hx : index (world hovered) = Z.of_nat item).
  { rewrite Hhovered. case_decide; [done|]. rewrite render_index_eq.
    - cbn [world props]. apply clamp_within. apply Hbw.
    - intros el. cbn [installed world].
      destruct Hc as (sc & Hi & _ & _ & _ & Hl & _). rewrite Hi. apply Hl. }
  split; [exact Hx|].
  destruct Hh as (sc & Hi & Hs & Ht & Hxs & Hl & Hb).
  subst result. rewrite (keydown_settled element event hovered sc);
    [|by exists sc|done].
  rewrite decide_True.
  2:{ rewrite Hs, Ht, Hp. split; [|done]. intros E. by rewrite E in Hu. }
  rewrite (onInput_action KEY sc event (world hovered) (validateSelection sc))
    by (destruct Hk as [-> | ->]; [apply actions_ENTER|apply actions_TAB]).
  unfold validateSelection. rewrite Ht, Hp, Htarget, Hshift. cbn [negb fst snd].
  rewrite decide_True by done. cbn [fst snd world index validated].
  split.
  { unfold stopPropagation, preventDefault.
    cbn [key shiftKey defaultPrevented propagationStopped]. by rewrite Hshift. }
  split; [|done].
  unfold onSelectionValidated. cbn [validated]. rewrite Hv.
  subst w. cbn [validated setSelectedSuggestionIndex]. do 3 f_equal.
  unfold at_index. rewrite Hxs, Hx, Hs, Hp.
  destruct (Z.ltb_spec (Z.of_nat item) 0); [lia|]. by rewrite Nat2Z.id.
Qed.

End Keys.

(** X17.  At every moment of a mounted component's life with a non-empty
    suggestion list (after mounting, prop changes, keys and pointer moves)
    the selection index names an entry of the list, and at most one
    keydown listener of the component is registered on any element. *)
Theorem selection_always_names_an_entry KEY p hs :
  let c := after_all KEY hs (mount p) in
  (props_suggestions (props c) ≠ [] →
   in_bounds (props_suggestions (props c)) (index (world c)) ∧
   is_Some (at_index (props_suggestions (props c)) (index (world c)))) ∧
  (∀ element, length (listeners_of element (world c)) ≤ 1)%nat.
Proof.
  intros c.
  assert (Hc : settled c) by apply after_all_settled, mount_settled.
  destruct Hc as (sc & Hi & Hs & Ht & Hx & Hl & Hb). split.
  - intros Hne. rewrite <- Hs in *. specialize (Hb Hne). split; [done|].
    unfold in_bounds in Hb. unfold at_index.
    destruct (Z.ltb_spec (index (world c)) 0); [lia|].
    apply lookup_lt_is_Some. lia.
  - intros element. rewrite Hl. unfold expected_listeners.
    case_decide; cbn; lia.
Qed.

(** *** Instances *)

Lemma dom_keys_distinct :
  NoDup [ARROW_UP dom_keys; ARROW_DOWN dom_keys; ENTER dom_keys; TAB dom_keys].
Proof. apply (bool_decide_unpack _). vm_compute. exact I. Qed.

Lemma other_keys_pass_through_witness :
  let event := mkKeyboardEvent "a" false false false in
  (key event ∉ [ARROW_UP dom_keys; ARROW_DOWN dom_keys; ENTER dom_keys; TAB dom_keys]) ∧
  happen dom_keys (keydown 7 event) (mount three_suggestions)
  = (event, mount three_suggestions).
Proof.
  intros event.
  assert (H : key event ∉ [ARROW_UP dom_keys; ARROW_DOWN dom_keys; ENTER dom_keys;
                           TAB dom_keys])
    by (apply (bool_decide_unpack _); vm_compute; exact I).
  split; [exact H|].
  exact (other_keys_pass_through dom_keys three_suggestions [] 7 event H).
Defined.

Lemma keys_do_one_thing_witness :
  let up := mkKeyboardEvent "ArrowUp" false false false in
  NoDup [ARROW_UP dom_keys; ARROW_DOWN dom_keys; ENTER dom_keys; TAB dom_keys] ∧
  validated (world (happen dom_keys (keydown 7 up) (mount three_suggestions)).2)
  = validated (world (mount three_suggestions)).
Proof.
  intros up. split; [exact dom_keys_distinct|].
  apply (keys_do_one_thing dom_keys three_suggestions [] 7 up dom_keys_distinct).
  left. reflexivity.
Defined.

Lemma arrows_step_and_stop_at_the_ends_witness :
  let up := mkKeyboardEvent "ArrowUp" false false false in
  let c := after_all dom_keys [keydown 7 up; keydown 7 up] (mount three_suggestions) in
  (NoDup [ARROW_UP dom_keys; ARROW_DOWN dom_keys; ENTER dom_keys; TAB dom_keys] ∧
   props_suggestions (props c) ≠ [] ∧
   props_targetInput (props c) = Some 7 ∧
   index (world c) = 2%Z) ∧
  (happen dom_keys (keydown 7 up) c).1 = mkKeyboardEvent "ArrowUp" false true true ∧
  index (world (happen dom_keys (keydown 7 up) c).2) = Z.min (index (world c) + 1) 2.
Proof.
  intros up c.
  assert (H1 : props_suggestions (props c) ≠ []) by (vm_compute; discriminate).
  assert (H2 : props_targetInput (props c) = Some 7) by reflexivity.
  split; [split_and!; [exact dom_keys_distinct|exact H1|exact H2|reflexivity]|].
  exact (proj1 (arrows_step_and_stop_at_the_ends dom_keys three_suggestions
                  [keydown 7 up; keydown 7 up] 7 up dom_keys_distinct H1 H2)
           eq_refl).
Defined.

Lemma hovered_item_is_committed_witness :
  let enter := mkKeyboardEvent "Enter" false false false in
  let c := mount three_suggestions in
  (props_suggestions (props c) !! 2 = Some carol ∧
   props_targetInput (props c) = Some 7 ∧
   (key enter = ENTER dom_keys ∨ key enter = TAB dom_keys) ∧
   shiftKey enter = false) ∧
  let hovered := (happen dom_keys (mouse_enter 2) c).2 in
  validated (world (happen dom_keys (keydown 7 enter) hovered).2)
  = validated (world c) ++ [(Some carol, 7)].
Proof.
  intros enter c.
  assert (H1 : props_suggestions (props c) !! 2 = Some carol) by reflexivity.
  assert (H2 : props_targetInput (props c) = Some 7) by reflexivity.
  assert (H3 : key enter = ENTER dom_keys ∨ key enter = TAB dom_keys)
    by (left; reflexivity).
  assert (H4 : shiftKey enter = false) by reflexivity.
  split; [by split_and!|].
  exact (proj1 (proj2 (proj2 (hovered_item_is_committed dom_keys three_suggestions
                                [] 7 enter 2 carol H1 H2 H3 H4)))).
Defined.

End MentionFurther.

(* ===================================================================== *)
(** * Further properties of the sidebar and of the event names            *)
(* ===================================================================== *)

Module SidebarFurther.
Import Sidebar.

(** X19.  The panel is never blank.  On the PREFERENCES tab only the
    preferences panel is rendered.  On any other tab, without conversations
    and connect requests only the welcome text (or the all-archived note) is
    rendered, so the start UI appears exactly on the CONNECT tab when there
    is a conversation or a connect request; the conversation list and the
    search input appear together. *)
Theorem children_by_tab s l :
  children s l ≠ [] ∧
  (currentTab s = PREFERENCES → children s l = [PreferencesPanel]) ∧
  (currentTab s ≠ PREFERENCES → hasNoConversations l = true →
   children s l = [if (archivedConversations l =? 0)%nat then Welcome else AllArchived]) ∧
  (StartUI ∈ children s l ↔ currentTab s = CONNECT ∧ hasNoConversations l = false) ∧
  (ConversationsList ∈ children s l ↔ ∃ icon, SearchInput icon ∈ children s l).
Proof.
  unfold children, isPreferences, showSearchInput.
  destruct s as [f tab]. cbn [currentTab conversationsFilter].
  destruct (hasNoConversations l), (archivedConversations l =? 0)%nat,
    (currentTabConversations l =? 0)%nat, tab;
    cbn; split_and!; try done; try (split; set_solver); try set_solver.
Qed.

(** X20.  The clear icon of the search input is shown exactly while the
    input is rendered with a non-empty filter: typing shows it, clicking it
    or changing the tab empties the filter and removes it. *)
Theorem clear_icon_follows_filter s l tab value :
  (SearchInput true ∉ children ((changeTab tab s).1) l) ∧
  (SearchInput true ∉ children (clear_filter s) l) ∧
  (SearchInput true ∈ children (type_filter value s) l ↔
   value ≠ "" ∧ showSearchInput s = true ∧ hasNoConversations l = false).
Proof.
  assert (Hempty : ∀ s', conversationsFilter s' = "" →
                         SearchInput true ∉ children s' l).
  { intros [f t] Hf. cbn in Hf. subst f.
    unfold children, isPreferences, showSearchInput. cbn [currentTab conversationsFilter].
    destruct (hasNoConversations l), (archivedConversations l =? 0)%nat,
      (currentTabConversations l =? 0)%nat, t; cbn; set_solver. }
  split_and!; [by apply Hempty..|].
  destruct s as [f t]. unfold type_filter, children, isPreferences, showSearchInput.
  cbn [currentTab conversationsFilter].
  destruct (String.eqb_spec value "") as [->|Hne].
  - destruct (hasNoConversations l), (archivedConversations l =? 0)%nat,
      (currentTabConversations l =? 0)%nat, t; cbn; set_solver.
  - destruct (hasNoConversations l), (archivedConversations l =? 0)%nat,
      (currentTabConversations l =? 0)%nat, t; cbn; set_solver.
Qed.

Lemma tab_changes_saved tabs : ∀ s,
  let r := tab_changes tabs s in
  currentTab r.1 = default (currentTab s) (last tabs) ∧
  (tabs ≠ [] → conversationsFilter r.1 = "") ∧
  last (isFolderTab s :: r.2) = Some (isFolderTab r.1) ∧
  alternates (isFolderTab s) r.2.
Proof.
  induction tabs as [|tab tabs IH]; intros s; [done|].
  cbn [tab_changes fst snd].
  set (s' := (changeTab tab s).1).
  destruct (IH s') as (Htab & Hfilter & Hlast & Halt).
  assert (Hs' : currentTab s' = tab ∧ conversationsFilter s' = "") by done.
  destruct Hs' as [Hs't Hs'f].
  split_and!.
  - rewrite Htab, Hs't. destruct tabs as [|t0 tabs']; [done|].
    change (last (tab :: t0 :: tabs')) with (last (t0 :: tabs')).
    by destruct (last (t0 :: tabs')) eqn:E; [|apply last_None in E].
  - intros _. destruct tabs as [|? ?]; [done|]. by apply Hfilter.
  - unfold saved_on_update. case_decide as Hsame.
    + cbn [app]. by rewrite Hsame.
    + cbn [app]. rewrite <- Hlast. by destruct (tab_changes tabs s').2.
  - unfold saved_on_update. case_decide as Hsame.
    + cbn [app]. by rewrite Hsame.
    + cbn [app alternates]. split; [congruence|done].
Qed.

(** X21.  Persisting the folder view.  Mounting saves the value that was
    read, so it never changes the stored preference.  After any sequence
    of tab changes the value saved last tells whether the current tab is
    FOLDER, and a value is saved only when it differs from the one saved
    before. *)
Theorem folder_preference_follows_tab viewFolders tabs :
  let r := session viewFolders tabs in
  head r.2 = Some viewFolders ∧
  last r.2 = Some (isFolderTab r.1) ∧
  currentTab r.1 = default (initialTab viewFolders) (last tabs) ∧
  alternates viewFolders (tail r.2).
Proof.
  intros r. subst r. unfold session. cbn [fst snd saved_on_mount app head tail].
  destruct (tab_changes_saved tabs (initial viewFolders)) as (Htab & _ & Hlast & Halt).
  assert (Hmount : isFolderTab (initial viewFolders) = viewFolders)
    by (by destruct viewFolders).
  rewrite Hmount in *. by split_and!.
Qed.

End SidebarFurther.

Module ClientEventProperties.
Import ClientEvent.

(** X22.  No two events of the registry share a name, and every name is
    made of its enum's name and its member's name, in lower case with
    hyphens, joined by a dot. *)
Theorem event_names_distinct_and_regular :
  NoDup (names.*2) ∧
  Forall (λ '(enum, members),
            Forall (λ '(member, value),
                      value = kebab enum +:+ "." +:+ kebab member) members)
    ClientEvent.
Proof.
  split.
  - apply (bool_decide_unpack _). vm_compute. exact I.
  - repeat constructor.
Qed.

End ClientEventProperties.
